(** * wasm-sysroot/stdio.h: the stub standard I/O header, and what a C
      translation unit sees of it

    The header is nineteen lines: an include guard, the NULL macro, two
    typedefs, two external declarations and six function-like macros.  It
    is embedded below line by line ([stdio_h]).  Around it stands a small
    model of the C translation phases that give the header its meaning:
    conditional inclusion and [#define] (ISO C 6.10.1, 6.10.3), macro
    replacement with argument collection and rescanning (6.10.3.1 to
    6.10.3.4), a parser and a checker for the expressions client code
    writes, and symbol resolution at link time (5.1.1.2, phase 8). *)

From stdpp Require Import gmap strings list.

(** ** Preprocessing tokens *)

Inductive token :=
| TId (x : string)        (* identifier or keyword *)
| TNum (n : Z)            (* integer constant *)
| TStr (s : string)       (* string literal *)
| TLParen
| TRParen
| TComma
| TPunct (p : string).    (* any other punctuator: * == != ++ -> . ! *)

#[global] Instance token_eq_dec : EqDecision token.
Proof. solve_decision. Defined.

(** ** Types and declarations *)

#[warnings="-register-all"] Inductive ctype :=
| CVoid
| CInt
| CChar
| CULong                                   (* unsigned long *)
| CStruct (fields : list (string * ctype)) (* struct { ... } without a tag *)
| CNamed (x : string)                      (* a typedef name *)
| CPtr (t : ctype)
| CConst (t : ctype).

Inductive decl :=
| Typedef (x : string) (t : ctype)
| ExternVar (x : string) (t : ctype)
| FunDecl (x : string) (ret : ctype) (params : list (string * ctype))
          (variadic : bool)
| VarDefn (x : string) (t : ctype)         (* client code only *)
| FunDefn (x : string) (ret : ctype).      (* client code only *)

(** ** Macros and the lines of a header *)

Inductive macro :=
| ObjMacro (body : list token)
| FunMacro (params : list string) (variadic : bool) (body : list token).

Inductive line :=
| Ifndef (x : string)
| Endif
| Define (x : string) (m : macro)
| Declaration (d : decl).

(** ** The header, line by line *)

Definition NULL_body : list token :=
  [TLParen; TLParen; TId "void"; TPunct "*"; TRParen; TNum 0; TRParen].

Definition stdio_h : list line :=
  [ Ifndef "_STDIO_H"
  ; Define "_STDIO_H" (ObjMacro [])
  ; Define "NULL" (ObjMacro NULL_body)
  ; Declaration (Typedef "size_t" CULong)
  ; Declaration (Typedef "FILE" (CStruct []))
  ; Declaration (ExternVar "stderr" (CPtr (CNamed "FILE")))
  ; Declaration (FunDecl "fprintf" CInt
                   [("stream", CPtr (CNamed "FILE"));
                    ("format", CPtr (CConst CChar))] true)
  ; Define "snprintf" (FunMacro ["str"; "size"; "format"] true [TNum 0])
  ; Define "vsnprintf" (FunMacro ["str"; "size"; "format"; "ap"] false [TNum 0])
  ; Define "fputs" (FunMacro ["s"; "stream"] false [TNum 0])
  ; Define "fputc" (FunMacro ["c"; "stream"] false [TNum 0])
  ; Define "fdopen" (FunMacro ["fd"; "mode"] false [TId "NULL"])
  ; Define "fclose" (FunMacro ["stream"] false [TNum 0])
  ; Endif ].

(** ** Conditional inclusion and definitions

    [conds] is the stack of open [#ifndef] groups, [true] for a group whose
    condition held.  A line takes effect only when every open group is
    active.  A [#define] of a name that is already a macro replaces the
    earlier definition. *)

Record pp_state := PP {
  macros : gmap string macro;
  decls : list decl;
  conds : list bool
}.

Definition pp_init : pp_state := PP ∅ [] [].

Definition active (st : pp_state) : bool := forallb id (conds st).

Definition pp_line (l : line) (st : pp_state) : option pp_state :=
  match l with
  | Ifndef x =>
      Some (PP (macros st) (decls st)
               (bool_decide (macros st !! x = None) :: conds st))
  | Endif =>
      match conds st with
      | [] => None
      | _ :: cs => Some (PP (macros st) (decls st) cs)
      end
  | Define x m =>
      if active st then Some (PP (<[x := m]> (macros st)) (decls st) (conds st))
      else Some st
  | Declaration d =>
      if active st then Some (PP (macros st) (decls st ++ [d]) (conds st))
      else Some st
  end.

Fixpoint pp_lines (ls : list line) (st : pp_state) : option pp_state :=
  match ls with
  | [] => Some st
  | l :: ls' => st' ← pp_line l st; pp_lines ls' st'
  end.

(** [#include] of a file: its lines are processed in the current state, and
    every group the file opens must be closed by its end. *)
Definition include (h : list line) (st : pp_state) : option pp_state :=
  st' ← pp_lines h st;
  if bool_decide (conds st' = conds st) then Some st' else None.

Fixpoint include_n (n : nat) (h : list line) (st : pp_state) : option pp_state :=
  match n with
  | O => Some st
  | S n' => st' ← include h st; include_n n' h st'
  end.

(** The state of a translation unit after [#include <stdio.h>]. *)
Definition stdio_env : pp_state :=
  default pp_init (include stdio_h pp_init).

(** ** Macro replacement

    Tokens carry a hide set: the macro names they must not be replaced by
    again (6.10.3.4p2).  [collect_args] reads the arguments of an
    invocation after its opening parenthesis: commas separate arguments
    only outside nested parentheses, and the matching right parenthesis
    ends the list (6.10.3p11).  It returns the arguments, the hide set of
    the closing parenthesis and the tokens after it; [None] is an
    unterminated invocation. *)

Definition htoken : Type := token * list string.

Fixpoint collect_args (depth : nat) (cur : list htoken)
    (acc : list (list htoken)) (ts : list htoken)
    : option (list (list htoken) * list string * list htoken) :=
  match ts with
  | [] => None
  | (TRParen, hs) :: rest =>
      match depth with
      | O => Some (reverse (reverse cur :: acc), hs, rest)
      | S d => collect_args d ((TRParen, hs) :: cur) acc rest
      end
  | (TLParen, hs) :: rest =>
      collect_args (S depth) ((TLParen, hs) :: cur) acc rest
  | (TComma, hs) :: rest =>
      match depth with
      | O => collect_args O [] (reverse cur :: acc) rest
      | S _ => collect_args depth ((TComma, hs) :: cur) acc rest
      end
  | t :: rest => collect_args depth (t :: cur) acc rest
  end.

Fixpoint join_commas (args : list (list htoken)) : list htoken :=
  match args with
  | [] => []
  | [a] => a
  | a :: args' => a ++ (TComma, []) :: join_commas args'
  end.

(** The number of arguments must equal the number of parameters; with an
    ellipsis there must be at least as many, and the rest becomes
    [__VA_ARGS__] (an empty rest is accepted, as clang and gcc do and as
    C23 specifies).  [f()] for a macro without parameters has no
    argument, not one empty argument. *)
Definition bind_args (params : list string) (variadic : bool)
    (args : list (list htoken)) : option (list (string * list htoken)) :=
  let n := length params in
  let args :=
    match params, args with
    | [], [ [] ] => []
    | _, _ => args
    end in
  if variadic then
    if decide (n ≤ length args)
    then Some (zip params (take n args)
               ++ [("__VA_ARGS__", join_commas (drop n args))])
    else None
  else
    if decide (length args = n) then Some (zip params args) else None.

Fixpoint assoc {A} (x : string) (l : list (string * A)) : option A :=
  match l with
  | [] => None
  | (y, a) :: l' => if decide (x = y) then Some a else assoc x l'
  end.

Definition paint (hs : list string) (ts : list htoken) : list htoken :=
  map (λ th : htoken, (th.1, hs ++ th.2)) ts.

Definition fresh (ts : list token) : list htoken :=
  map (λ t, (t, [])) ts.

(** Substitution of the arguments into a macro body: a parameter stands for
    its argument, expanded by [exp]; an argument whose parameter the body
    does not mention is never expanded.  The header uses neither [#] nor
    [##]; they are not modelled. *)
Fixpoint subst (exp : list htoken → option (list htoken))
    (env : list (string * list htoken)) (b : list token)
    : option (list htoken) :=
  match b with
  | [] => Some []
  | TId p :: b' =>
      match assoc p env with
      | Some actual => a ← exp actual; r ← subst exp env b'; Some (a ++ r)
      | None => r ← subst exp env b'; Some ((TId p, []) :: r)
      end
  | t :: b' => r ← subst exp env b'; Some ((t, []) :: r)
  end.

(** [expand] scans the tokens from left to right.  An identifier that names
    an object-like macro is replaced by the macro's body; one that names a
    function-like macro and is followed by a left parenthesis is replaced,
    together with its argument list, by the body with the arguments
    substituted.  The replacement is rescanned together with the rest of
    the tokens.  Each token scanned costs one unit of [fuel]. *)
Fixpoint expand (M : gmap string macro) (fuel : nat) (ts : list htoken)
    : option (list htoken) :=
  match fuel with
  | O => None
  | S fuel' =>
      match ts with
      | [] => Some []
      | (TId x, hs) :: rest =>
          if bool_decide (x ∈ hs)
          then r ← expand M fuel' rest; Some ((TId x, hs) :: r)
          else
            match M !! x with
            | Some (ObjMacro body) =>
                expand M fuel' (paint (x :: hs) (fresh body) ++ rest)
            | Some (FunMacro params variadic body) =>
                match rest with
                | (TLParen, _) :: rest' =>
                    '(args, hs', rest'') ← collect_args 0 [] [] rest';
                    env ← bind_args params variadic args;
                    body' ← subst (expand M fuel') env body;
                    expand M fuel'
                      (paint (x :: list_intersection hs hs') body' ++ rest'')
                | _ => r ← expand M fuel' rest; Some ((TId x, hs) :: r)
                end
            | None => r ← expand M fuel' rest; Some ((TId x, hs) :: r)
            end
      | t :: rest => r ← expand M fuel' rest; Some (t :: r)
      end
  end.

(** The preprocessor on the tokens of client code. *)
Definition cpp (M : gmap string macro) (fuel : nat) (ts : list token)
    : option (list token) :=
  r ← expand M fuel (fresh ts); Some (map fst r).

(** The text [f(a1, ..., an)] of an invocation. *)
Fixpoint commas (args : list (list token)) : list token :=
  match args with
  | [] => []
  | [a] => a
  | a :: args' => a ++ TComma :: commas args'
  end.

Definition call (f : string) (args : list (list token)) : list token :=
  TId f :: TLParen :: commas args ++ [TRParen].

(** What may stand as one argument: parentheses balanced, no comma outside
    them.  [arg_scan] follows the nesting depth. *)
Fixpoint arg_scan (depth : nat) (a : list token) : option nat :=
  match a with
  | [] => Some depth
  | TLParen :: a' => arg_scan (S depth) a'
  | TRParen :: a' =>
      match depth with
      | O => None
      | S d => arg_scan d a'
      end
  | TComma :: a' =>
      match depth with
      | O => None
      | S _ => arg_scan depth a'
      end
  | _ :: a' => arg_scan depth a'
  end.

Definition is_arg (a : list token) : Prop := arg_scan 0 a = Some 0%nat.

(** ** Expressions of client code

    The fragment of C expressions that uses of this header are written in:
    constants, variables, calls, postfix increment, casts, logical
    negation, indirection, member access, equality.

<<
    primary  ::= NUM | STR | ID | ID '(' [expr {',' expr}] ')' | '(' expr ')'
    postfix  ::= primary { '++' | '->' ID | '.' ID }
    unary    ::= postfix | '!' unary | '*' unary | '(' type {'*'} ')' unary
    expr     ::= unary { ('==' | '!=') unary }
>> *)

#[warnings="-register-all"] Inductive expr :=
| EConst (n : Z)
| EStr (s : string)
| EVar (x : string)
| ECall (f : string) (args : list expr)
| EPostInc (e : expr)
| ECast (t : ctype) (e : expr)
| ENot (e : expr)
| EDeref (e : expr)
| EMember (e : expr) (f : string)
| EArrow (e : expr) (f : string)
| EEq (a b : expr)
| ENe (a b : expr).

(** A type name starts with a keyword or with a typedef name in scope. *)
Definition base_type (tn : list string) (x : string) : option ctype :=
  if decide (x = "void") then Some CVoid
  else if decide (x = "int") then Some CInt
  else if decide (x = "char") then Some CChar
  else if bool_decide (x ∈ tn) then Some (CNamed x)
  else None.

Fixpoint stars (t : ctype) (ts : list token) : ctype * list token :=
  match ts with
  | TPunct p :: ts' => if decide (p = "*") then stars (CPtr t) ts' else (t, ts)
  | _ => (t, ts)
  end.

Section Parser.
Variable tn : list string.

#[warnings="-non-full-mutual"] Fixpoint parse_expr (fuel : nat) (ts : list token)
    : option (expr * list token) :=
  match fuel with
  | O => None
  | S f => '(a, ts1) ← parse_unary f ts; parse_eq_tail f a ts1
  end
with parse_eq_tail (fuel : nat) (a : expr) (ts : list token)
    : option (expr * list token) :=
  match fuel with
  | O => None
  | S f =>
      match ts with
      | TPunct p :: ts1 =>
          if decide (p = "==") then
            '(b, ts2) ← parse_unary f ts1; parse_eq_tail f (EEq a b) ts2
          else if decide (p = "!=") then
            '(b, ts2) ← parse_unary f ts1; parse_eq_tail f (ENe a b) ts2
          else Some (a, ts)
      | _ => Some (a, ts)
      end
  end
with parse_unary (fuel : nat) (ts : list token)
    : option (expr * list token) :=
  match fuel with
  | O => None
  | S f =>
      match ts with
      | TPunct p :: ts1 =>
          if decide (p = "!") then
            '(e, ts2) ← parse_unary f ts1; Some (ENot e, ts2)
          else if decide (p = "*") then
            '(e, ts2) ← parse_unary f ts1; Some (EDeref e, ts2)
          else None
      | TLParen :: TId x :: ts1 =>
          match base_type tn x with
          | Some t =>
              match stars t ts1 with
              | (t', TRParen :: ts2) =>
                  '(e, ts3) ← parse_unary f ts2; Some (ECast t' e, ts3)
              | _ => None
              end
          | None => parse_postfix f ts
          end
      | _ => parse_postfix f ts
      end
  end
with parse_postfix (fuel : nat) (ts : list token)
    : option (expr * list token) :=
  match fuel with
  | O => None
  | S f => '(e, ts1) ← parse_primary f ts; parse_post_tail f e ts1
  end
with parse_post_tail (fuel : nat) (e : expr) (ts : list token)
    : option (expr * list token) :=
  match fuel with
  | O => None
  | S f =>
      match ts with
      | TPunct p :: ts1 =>
          if decide (p = "++") then parse_post_tail f (EPostInc e) ts1
          else if decide (p = "->") then
            match ts1 with
            | TId x :: ts2 => parse_post_tail f (EArrow e x) ts2
            | _ => None
            end
          else if decide (p = ".") then
            match ts1 with
            | TId x :: ts2 => parse_post_tail f (EMember e x) ts2
            | _ => None
            end
          else Some (e, ts)
      | _ => Some (e, ts)
      end
  end
with parse_primary (fuel : nat) (ts : list token)
    : option (expr * list token) :=
  match fuel with
  | O => None
  | S f =>
      match ts with
      | TNum n :: ts1 => Some (EConst n, ts1)
      | TStr s :: ts1 => Some (EStr s, ts1)
      | TId x :: TLParen :: TRParen :: ts1 => Some (ECall x [], ts1)
      | TId x :: TLParen :: ts1 =>
          '(args, ts2) ← parse_args f ts1; Some (ECall x args, ts2)
      | TId x :: ts1 => Some (EVar x, ts1)
      | TLParen :: ts1 =>
          '(e, ts2) ← parse_expr f ts1;
          match ts2 with
          | TRParen :: ts3 => Some (e, ts3)
          | _ => None
          end
      | _ => None
      end
  end
with parse_args (fuel : nat) (ts : list token)
    : option (list expr * list token) :=
  match fuel with
  | O => None
  | S f =>
      '(e, ts1) ← parse_expr f ts;
      match ts1 with
      | TRParen :: ts2 => Some ([e], ts2)
      | TComma :: ts2 => '(es, ts3) ← parse_args f ts2; Some (e :: es, ts3)
      | _ => None
      end
  end.

(** A whole expression: nothing may be left over. *)
Definition parse (fuel : nat) (ts : list token) : option expr :=
  '(e, rest) ← parse_expr fuel ts;
  match rest with
  | [] => Some e
  | _ => None
  end.
End Parser.

(** ** Typing

    Declarations in scope are looked up by name, the first one wins. *)

Definition decl_name (d : decl) : string :=
  match d with
  | Typedef x _ | ExternVar x _ | FunDecl x _ _ _ | VarDefn x _ | FunDefn x _ => x
  end.

Fixpoint find_typedef (ds : list decl) (x : string) : option ctype :=
  match ds with
  | [] => None
  | Typedef y t :: ds' => if decide (x = y) then Some t else find_typedef ds' x
  | _ :: ds' => find_typedef ds' x
  end.

Fixpoint find_var (ds : list decl) (x : string) : option ctype :=
  match ds with
  | [] => None
  | ExternVar y t :: ds' | VarDefn y t :: ds' =>
      if decide (x = y) then Some t else find_var ds' x
  | _ :: ds' => find_var ds' x
  end.

(** Return type, parameter types, ellipsis. *)
Fixpoint find_fun (ds : list decl) (x : string)
    : option (ctype * list ctype * bool) :=
  match ds with
  | [] => None
  | FunDecl y r ps v :: ds' =>
      if decide (x = y) then Some (r, map snd ps, v) else find_fun ds' x
  | FunDefn y r :: ds' =>
      if decide (x = y) then Some (r, [], false) else find_fun ds' x
  | _ :: ds' => find_fun ds' x
  end.

Definition typedef_names (ds : list decl) : list string :=
  omap (λ d, match d with Typedef x _ => Some x | _ => None end) ds.

Fixpoint ctype_eqb (a b : ctype) : bool :=
  match a, b with
  | CVoid, CVoid | CInt, CInt | CChar, CChar | CULong, CULong => true
  | CStruct fa, CStruct fb =>
      (fix go (fa fb : list (string * ctype)) : bool :=
         match fa, fb with
         | [], [] => true
         | (x, t) :: fa', (y, u) :: fb' =>
             bool_decide (x = y) && ctype_eqb t u && go fa' fb'
         | _, _ => false
         end) fa fb
  | CNamed x, CNamed y => bool_decide (x = y)
  | CPtr t, CPtr u | CConst t, CConst u => ctype_eqb t u
  | _, _ => false
  end.

Fixpoint unqual (t : ctype) : ctype :=
  match t with
  | CConst t' => unqual t'
  | _ => t
  end.

(** The type a name stands for, qualifiers dropped.  A chain of typedefs is
    no longer than the list of declarations. *)
Fixpoint resolve (ds : list decl) (fuel : nat) (t : ctype) : option ctype :=
  match unqual t with
  | CNamed x =>
      match fuel with
      | O => None
      | S f => t' ← find_typedef ds x; resolve ds f t'
      end
  | t' => Some t'
  end.

Definition resolved (ds : list decl) (t : ctype) : option ctype :=
  resolve ds (length ds) t.

Definition arith (t : ctype) : bool :=
  match t with
  | CInt | CChar | CULong => true
  | _ => false
  end.

Definition is_ptr (t : ctype) : bool :=
  match t with
  | CPtr _ => true
  | _ => false
  end.

Definition is_struct (t : ctype) : bool :=
  match t with
  | CStruct _ => true
  | _ => false
  end.

Definition is_const (t : ctype) : bool :=
  match t with
  | CConst _ => true
  | _ => false
  end.

(** A null pointer constant: the integer constant 0, or that constant cast
    to [void *] (6.3.2.3p3). *)
Definition null_constant (e : expr) : bool :=
  match e with
  | EConst 0 => true
  | ECast (CPtr CVoid) (EConst 0) => true
  | _ => false
  end.

(** What the replacement of NULL parses to. *)
Definition NULL_expr : expr := ECast (CPtr CVoid) (EConst 0).

(** Two pointed-to types are compatible when they are the same name, or
    stand for the same type.  Each struct specifier declares a type of its
    own, so two of them are compatible only through one name. *)
Definition compatible (ds : list decl) (a b : ctype) : bool :=
  ctype_eqb (unqual a) (unqual b)
  || match resolved ds a, resolved ds b with
     | Some a', Some b' => ctype_eqb a' b' && negb (is_struct a')
     | _, _ => false
     end.

(** May an expression [e] of type [te] initialise, be assigned to or be
    passed for an object of type [t] (6.5.16.1)?  The pointed-to type of
    the target must have the qualifiers of the source's. *)
Definition assignable (ds : list decl) (e : expr) (te t : ctype) : bool :=
  match resolved ds t, resolved ds te with
  | Some (CPtr a), Some (CPtr b) =>
      null_constant e
      || ((is_const a || negb (is_const b))
          && (ctype_eqb (unqual a) CVoid || ctype_eqb (unqual b) CVoid
              || compatible ds a b))
  | Some (CPtr _), Some _ => null_constant e
  | Some t1, Some t2 => arith t1 && arith t2
  | _, _ => false
  end.

Fixpoint check_args (ds : list decl) (args : list (expr * ctype))
    (params : list ctype) (variadic : bool) : bool :=
  match args, params with
  | [], [] => true
  | (e, te) :: args', t :: params' =>
      assignable ds e te t && check_args ds args' params' variadic
  | _ :: _, [] => variadic
  | [], _ :: _ => false
  end.

(** The type of an expression; [None] is a compile-time error. *)
Fixpoint type_of (ds : list decl) (e : expr) : option ctype :=
  match e with
  | EConst _ => Some CInt
  | EStr _ => Some (CPtr CChar)
  | EVar x => find_var ds x
  | ECall f args =>
      '(ret, params, variadic) ← find_fun ds f;
      targs ← mapM (λ a, t ← type_of ds a; Some (a, t)) args;
      if check_args ds targs params variadic then Some ret else None
  | EPostInc a =>
      match a with
      | EVar _ =>
          t ← type_of ds a; t' ← resolved ds t;
          if arith t' || is_ptr t' then Some t else None
      | _ => None
      end
  | ECast t a =>
      ta ← type_of ds a; ta' ← resolved ds ta; t' ← resolved ds t;
      if (arith t' || is_ptr t') && (arith ta' || is_ptr ta')
      then Some t else None
  | ENot a =>
      t ← type_of ds a; t' ← resolved ds t;
      if arith t' || is_ptr t' then Some CInt else None
  | EDeref a =>
      t ← type_of ds a; t' ← resolved ds t;
      match t' with
      | CPtr u => Some u
      | _ => None
      end
  | EMember a f =>
      t ← type_of ds a; t' ← resolved ds t;
      match t' with
      | CStruct fields => assoc f fields
      | _ => None
      end
  | EArrow a f =>
      t ← type_of ds a; t' ← resolved ds t;
      match t' with
      | CPtr u =>
          u' ← resolved ds u;
          match u' with
          | CStruct fields => assoc f fields
          | _ => None
          end
      | _ => None
      end
  | EEq a b | ENe a b =>
      ta ← type_of ds a; tb ← type_of ds b;
      ta' ← resolved ds ta; tb' ← resolved ds tb;
      if (arith ta' && arith tb')
         || (is_ptr ta' && (assignable ds b tb ta))
         || (is_ptr tb' && (assignable ds a ta tb))
      then Some CInt else None
  end.

(** A constant expression: no object is read, nothing is called, nothing is
    modified (6.6). *)
Fixpoint constant_expr (e : expr) : bool :=
  match e with
  | EConst _ => true
  | ECast _ a | ENot a => constant_expr a
  | EEq a b | ENe a b => constant_expr a && constant_expr b
  | _ => false
  end.

(** The names an expression uses: the objects it reads and the functions
    it calls. *)
Fixpoint refs (e : expr) : gset string :=
  match e with
  | EConst _ | EStr _ => ∅
  | EVar x => {[ x ]}
  | ECall f args => {[ f ]} ∪ ⋃ (map refs args)
  | EPostInc a | ECast _ a | ENot a | EDeref a | EMember a _ | EArrow a _ =>
      refs a
  | EEq a b | ENe a b => refs a ∪ refs b
  end.

(** An expression without effect: it calls nothing and modifies nothing. *)
Fixpoint pure (e : expr) : bool :=
  match e with
  | EConst _ | EStr _ | EVar _ => true
  | ECall _ _ | EPostInc _ => false
  | ECast _ a | ENot a | EDeref a | EMember a _ | EArrow a _ => pure a
  | EEq a b | ENe a b => pure a && pure b
  end.

(** The names an expression statement leaves in the object.  A statement
    without effect is dropped, and with it the names it reads.  For the
    others the names the expression uses are kept: an upper bound, since a
    compiler may compute less than what is written. *)
Definition stmt_refs (e : expr) : gset string :=
  if pure e then ∅ else refs e.

(** Does a written type hold a struct specifier?  A struct specifier
    declares a type of its own each time it is written (6.7.2.3p5). *)
Fixpoint has_struct (t : ctype) : bool :=
  match t with
  | CStruct _ => true
  | CPtr u | CConst u => has_struct u
  | _ => false
  end.

(** The typedef names declared so far, each with the type it stands for,
    the typedef names in that type replaced already.  A name introduced
    with a struct specifier stands for itself: that type has no other
    name.  [canon] replaces the typedef names of a written type. *)
Fixpoint canon (tbl : list (string * ctype)) (t : ctype) : ctype :=
  match t with
  | CNamed x => default (CNamed x) (assoc x tbl)
  | CPtr u => CPtr (canon tbl u)
  | CConst u => CConst (canon tbl u)
  | _ => t
  end.

Definition enter (tbl : list (string * ctype)) (d : decl)
    : list (string * ctype) :=
  match d with
  | Typedef x t => tbl ++ [(x, if has_struct t then CNamed x else canon tbl t)]
  | _ => tbl
  end.

(** Does the type written as [t2] denote the type [t1] already stands for?
    Never when [t2] holds a struct specifier, which is a new type. *)
Definition same_type (tbl : list (string * ctype)) (t1 t2 : ctype) : bool :=
  if has_struct t2 then false else ctype_eqb (canon tbl t1) (canon tbl t2).

(** A name may be declared again only in agreement with what it already
    stands for: an object or function with the same type, a definition
    after its declaration, a typedef for the type the name denotes
    already (6.7p3).  [tbl] holds the typedef names in scope where the
    second declaration stands. *)
Definition redeclarable (tbl : list (string * ctype)) (d1 d2 : decl) : bool :=
  match d1, d2 with
  | Typedef x _, Typedef _ t2 => same_type tbl (CNamed x) t2
  | ExternVar _ t1, ExternVar _ t2 | ExternVar _ t1, VarDefn _ t2
  | VarDefn _ t1, ExternVar _ t2 => same_type tbl t1 t2
  | FunDecl _ r1 p1 v1, FunDecl _ r2 p2 v2 =>
      same_type tbl r1 r2 && bool_decide (length p1 = length p2)
      && forallb (λ tu, same_type tbl tu.1 tu.2) (zip (map snd p1) (map snd p2))
      && bool_decide (v1 = v2)
  | FunDecl _ r1 _ _, FunDefn _ r2 | FunDefn _ r1, FunDecl _ r2 _ _ =>
      same_type tbl r1 r2
  | _, _ => false
  end.

(** The declarations are read in order; each must agree with the earlier
    declarations of its name. *)
Fixpoint check_from (tbl : list (string * ctype)) (seen ds : list decl) : bool :=
  match ds with
  | [] => true
  | d :: ds' =>
      forallb (λ d1, negb (bool_decide (decl_name d1 = decl_name d))
                     || redeclarable tbl d1 d) seen
      && check_from (enter tbl d) (seen ++ [d]) ds'
  end.

Definition check_decls (ds : list decl) : bool := check_from [] [] ds.

(** ** Targets and values

    The sysroot serves the WebAssembly targets.  Their C ABI fixes the
    widths: [char] 8 bits, [int] 32 bits, [long] and pointers 32 bits on
    wasm32 and 64 bits on wasm64. *)

Inductive target := Wasm32 | Wasm64.

Definition pointer_bits (tg : target) : Z :=
  match tg with
  | Wasm32 => 32%Z
  | Wasm64 => 64%Z
  end.

Definition long_bits (tg : target) : Z :=
  match tg with
  | Wasm32 => 32%Z
  | Wasm64 => 64%Z
  end.

Definition bits (tg : target) (t : ctype) : option Z :=
  match t with
  | CChar => Some 8%Z
  | CInt => Some 32%Z
  | CULong => Some (long_bits tg)
  | CPtr _ => Some (pointer_bits tg)
  | _ => None
  end.

Definition unsigned (t : ctype) : bool :=
  match t with
  | CULong => true
  | _ => false
  end.

(** Conversion of an integer to an arithmetic type: an unsigned type wraps
    modulo two to the width (6.3.1.3p2); a signed type keeps a value it
    can represent. *)
Definition convert (tg : target) (t : ctype) (n : Z) : option Z :=
  w ← bits tg t;
  if unsigned t then Some (n mod 2 ^ w)%Z
  else if bool_decide (- 2 ^ (w - 1) ≤ n < 2 ^ (w - 1))%Z then Some n
  else None.

#[warnings="-register-all"] Inductive value :=
| VInt (n : Z)
| VNull
| VAddr (a : Z)
| VStrLit (s : string)
| VStruct (members : list (string * value)).

(** The values of a type (typedef names resolved). *)
Fixpoint has_type (tg : target) (v : value) (t : ctype) : bool :=
  match v, t with
  | VInt n, (CInt | CChar | CULong) =>
      match bits tg t with
      | Some w =>
          if unsigned t then bool_decide (0 ≤ n < 2 ^ w)%Z
          else bool_decide (- 2 ^ (w - 1) ≤ n < 2 ^ (w - 1))%Z
      | None => false
      end
  | VNull, CPtr _ => true
  | VAddr a, CPtr _ => bool_decide (0 < a < 2 ^ pointer_bits tg)%Z
  | VStrLit _, CPtr u => ctype_eqb (unqual u) CChar
  | VStruct ms, CStruct fields =>
      (fix go (ms : list (string * value)) (fs : list (string * ctype)) : bool :=
         match ms, fs with
         | [], [] => true
         | (x, v') :: ms', (y, t') :: fs' =>
             bool_decide (x = y) && has_type tg v' t' && go ms' fs'
         | _, _ => false
         end) ms fields
  | _, _ => false
  end.

(** ** Evaluation

    The state of a running program as far as these expressions can touch
    it: the values of its variables and the calls it has made, in order.
    Every call that survives preprocessing is an event of the trace; what
    the called function returns is given by [ext].  This is evaluation in
    the abstract machine (5.1.2.3), each call made as it is written: an
    implementation that knows a library function may reach the function's
    effect another way.  Indirection and member access would need a memory
    and have no value here. *)

Record state := State {
  vars : gmap string value;
  trace : list (string * list value)
}.

Definition truth (v : value) : option bool :=
  match v with
  | VInt n => Some (bool_decide (n ≠ 0%Z))
  | VNull => Some false
  | VAddr _ | VStrLit _ => Some true
  | VStruct _ => None
  end.

Definition equal (a b : value) : option bool :=
  match a, b with
  | VInt n, VInt m => Some (bool_decide (n = m))
  | VNull, VNull => Some true
  | VNull, VAddr _ | VAddr _, VNull => Some false
  | VAddr x, VAddr y => Some (bool_decide (x = y))
  | VInt 0, VNull | VNull, VInt 0 => Some true
  | VInt 0, VAddr _ | VAddr _, VInt 0 => Some false
  | _, _ => None
  end.

Definition of_bool (b : bool) : value := VInt (if b then 1 else 0).

Section Eval.
Variable ext : string → list value → value.

Fixpoint eval (e : expr) (st : state) : option (value * state) :=
  match e with
  | EConst n => Some (VInt n, st)
  | EStr s => Some (VStrLit s, st)
  | EVar x => v ← vars st !! x; Some (v, st)
  | ECall f args =>
      '(vs, st') ←
        (fix go (es : list expr) (st : state) : option (list value * state) :=
           match es with
           | [] => Some ([], st)
           | a :: es' =>
               '(v, st1) ← eval a st;
               '(vs, st2) ← go es' st1;
               Some (v :: vs, st2)
           end) args st;
      Some (ext f vs, State (vars st') (trace st' ++ [(f, vs)]))
  | EPostInc (EVar x) =>
      match vars st !! x with
      | Some (VInt n) =>
          if bool_decide (n + 1 < 2 ^ 31)%Z
          then Some (VInt n, State (<[x := VInt (n + 1)%Z]> (vars st)) (trace st))
          else None
      | _ => None
      end
  | EPostInc _ => None
  | ECast t a =>
      '(v, st') ← eval a st;
      match t, v with
      | CPtr _, VInt 0 => Some (VNull, st')
      | CPtr _, (VNull | VAddr _ | VStrLit _) => Some (v, st')
      | _, _ => None
      end
  | ENot a =>
      '(v, st') ← eval a st; b ← truth v; Some (of_bool (negb b), st')
  | EEq a b =>
      '(va, st1) ← eval a st; '(vb, st2) ← eval b st1;
      c ← equal va vb; Some (of_bool c, st2)
  | ENe a b =>
      '(va, st1) ← eval a st; '(vb, st2) ← eval b st1;
      c ← equal va vb; Some (of_bool (negb c), st2)
  | EDeref _ | EMember _ _ | EArrow _ _ => None
  end.

(** Client code, from its tokens to its effect: preprocessed under the
    macros in force, parsed, checked against the declarations in scope,
    evaluated. *)
Definition run (env : pp_state) (fuel : nat) (ts : list token) (st : state)
    : option (value * state) :=
  ts' ← cpp (macros env) fuel ts;
  e ← parse (typedef_names (decls env)) fuel ts';
  _ ← type_of (decls env) e;
  eval e st.
End Eval.

(** ** Translation units, objects and linking

    A translation unit is a sequence of inclusions, object definitions and
    function definitions; a function body is a sequence of expression
    statements, given as the tokens the programmer wrote.  The translator
    is that of a freestanding implementation (5.1.2.1): it knows no
    library function and substitutes none. *)

Inductive top :=
| Include (h : list line)
| Var (x : string) (t : ctype)
| Fun (x : string) (ret : ctype) (body : list (list token)).

Inductive error := PreprocessorError | SyntaxError | TypeError | Redeclaration.

(** What the compiler hands to the linker: the symbols the unit defines
    and the ones it may refer to without defining them. *)
Record object := Obj {
  defined : gset string;
  undefined : gset string
}.

Record cstate := CS {
  pp : pp_state;
  defs : gset string;
  used : gset string
}.

Definition declare (d : decl) (st : pp_state) : pp_state :=
  PP (macros st) (decls st ++ [d]) (conds st).

Definition compile_stmt (fuel : nat) (st : pp_state) (ts : list token)
    : error + expr :=
  match cpp (macros st) fuel ts with
  | None => inl PreprocessorError
  | Some ts' =>
      match parse (typedef_names (decls st)) fuel ts' with
      | None => inl SyntaxError
      | Some e =>
          match type_of (decls st) e with
          | None => inl TypeError
          | Some _ => inr e
          end
      end
  end.

Fixpoint compile_body (fuel : nat) (st : pp_state) (body : list (list token))
    : error + gset string :=
  match body with
  | [] => inr ∅
  | ts :: body' =>
      match compile_stmt fuel st ts with
      | inl err => inl err
      | inr e =>
          match compile_body fuel st body' with
          | inl err => inl err
          | inr u => inr (stmt_refs e ∪ u)
          end
      end
  end.

(** The symbol a declaration defines, if it is a definition. *)
Definition defined_by (d : decl) : option string :=
  match d with
  | VarDefn x _ | FunDefn x _ => Some x
  | _ => None
  end.

(** The definitions a part of a unit holds; for a header, those of its
    lines, whether a conditional group skips them or not. *)
Definition line_definition (l : line) : option string :=
  match l with
  | Declaration d => defined_by d
  | _ => None
  end.

Definition top_definitions (t : top) : list string :=
  match t with
  | Include h => omap line_definition h
  | Var x _ | Fun x _ _ => [x]
  end.

(** An included file may hold definitions; they are definitions of the
    unit like its own. *)
Definition compile_top (fuel : nat) (t : top) (cs : cstate) : error + cstate :=
  match t with
  | Include h =>
      match include h (pp cs) with
      | None => inl PreprocessorError
      | Some st =>
          inr (CS st
                 (list_to_set
                    (omap defined_by
                       (drop (length (decls (pp cs))) (decls st)))
                  ∪ defs cs)
                 (used cs))
      end
  | Var x t => inr (CS (declare (VarDefn x t) (pp cs)) ({[ x ]} ∪ defs cs) (used cs))
  | Fun x ret body =>
      let st := declare (FunDefn x ret) (pp cs) in
      match compile_body fuel st body with
      | inl err => inl err
      | inr u => inr (CS st ({[ x ]} ∪ defs cs) (u ∪ used cs))
      end
  end.

Fixpoint compile_tops (fuel : nat) (tu : list top) (cs : cstate)
    : error + cstate :=
  match tu with
  | [] => inr cs
  | t :: tu' =>
      match compile_top fuel t cs with
      | inl err => inl err
      | inr cs' => compile_tops fuel tu' cs'
      end
  end.

Definition compile (fuel : nat) (tu : list top) : error + object :=
  match compile_tops fuel tu (CS pp_init ∅ ∅) with
  | inl err => inl err
  | inr cs =>
      if check_decls (decls (pp cs))
      then inr (Obj (defs cs) (used cs ∖ defs cs))
      else inl Redeclaration
  end.

Inductive link_error :=
| Unresolved (x : string)
| Duplicate (x : string).

Fixpoint duplicates (objs : list object) : gset string :=
  match objs with
  | [] => ∅
  | o :: objs' => (defined o ∩ ⋃ (defined <$> objs')) ∪ duplicates objs'
  end.

(** Linking: every symbol some object refers to must be defined by an
    object, and by one only.  The empty list of errors is success. *)
Definition link (objs : list object) : list link_error :=
  (Unresolved <$> elements (⋃ (undefined <$> objs) ∖ ⋃ (defined <$> objs)))
  ++ (Duplicate <$> elements (duplicates objs)).


(** ** Invocations that fit

    The number of arguments fits a parameter list when it is the number of
    parameters, or at least that number when an ellipsis follows. *)
Definition fits (ps : list string) (variadic : bool) (n : nat) : Prop :=
  if variadic then (length ps ≤ n)%nat else n = length ps.

(** A statement that is nothing but an invocation of one of the header's
    function-like macros, with arguments that fit it. *)
Definition invocation (stmt : list token) : Prop :=
  ∃ f ps v body (args : list (list token)),
    macros stdio_env !! f = Some (FunMacro ps v body)
    ∧ stmt = call f args ∧ args ≠ [] ∧ Forall is_arg args
    ∧ fits ps v (length args).

(** * Properties *)

(** ** The environment the header leaves *)

Lemma include_stdio_h : include stdio_h pp_init = Some stdio_env.
Proof. vm_compute. reflexivity. Qed.

Lemma stdio_decls :
  decls stdio_env =
  [ Typedef "size_t" CULong
  ; Typedef "FILE" (CStruct [])
  ; ExternVar "stderr" (CPtr (CNamed "FILE"))
  ; FunDecl "fprintf" CInt
      [("stream", CPtr (CNamed "FILE")); ("format", CPtr (CConst CChar))] true ].
Proof. reflexivity. Qed.

Lemma macro_snprintf :
  macros stdio_env !! "snprintf"
  = Some (FunMacro ["str"; "size"; "format"] true [TNum 0]).
Proof. vm_compute. reflexivity. Qed.

Lemma macro_vsnprintf :
  macros stdio_env !! "vsnprintf"
  = Some (FunMacro ["str"; "size"; "format"; "ap"] false [TNum 0]).
Proof. vm_compute. reflexivity. Qed.

Lemma macro_fputs :
  macros stdio_env !! "fputs" = Some (FunMacro ["s"; "stream"] false [TNum 0]).
Proof. vm_compute. reflexivity. Qed.

Lemma macro_fputc :
  macros stdio_env !! "fputc" = Some (FunMacro ["c"; "stream"] false [TNum 0]).
Proof. vm_compute. reflexivity. Qed.

Lemma macro_fdopen :
  macros stdio_env !! "fdopen"
  = Some (FunMacro ["fd"; "mode"] false [TId "NULL"]).
Proof. vm_compute. reflexivity. Qed.

Lemma macro_fclose :
  macros stdio_env !! "fclose" = Some (FunMacro ["stream"] false [TNum 0]).
Proof. vm_compute. reflexivity. Qed.

(** ** Argument collection *)

Lemma fresh_app (a b : list token) : fresh (a ++ b) = fresh a ++ fresh b.
Proof. apply map_app. Qed.

(** Reading an argument's tokens moves them onto the current argument and
    ends at the depth [arg_scan] computes. *)
Lemma collect_args_scan (a : list token) :
  ∀ d d' cur acc rest,
    arg_scan d a = Some d' →
    collect_args d cur acc (fresh a ++ rest)
    = collect_args d' (reverse (fresh a) ++ cur) acc rest.
Proof.
  induction a as [|t a IH]; intros d d' cur acc rest Hs.
  - simpl in Hs. by simplify_eq.
  - assert (Hcons : ∀ c, reverse (fresh (t :: a)) ++ c
                         = reverse (fresh a) ++ (t, []) :: c).
    { intros c. simpl. rewrite reverse_cons, <- app_assoc. reflexivity. }
    rewrite Hcons.
    destruct t; simpl in Hs |- *;
      try (by apply IH);
      destruct d; try discriminate; by apply IH.
Qed.

Lemma collect_args_commas (args : list (list token)) :
  args ≠ [] → Forall is_arg args →
  ∀ acc hs rest,
    collect_args 0 [] acc (fresh (commas args) ++ (TRParen, hs) :: rest)
    = Some (reverse acc ++ map fresh args, hs, rest).
Proof.
  induction args as [|a args IH]; [done|].
  intros _ Hall acc hs rest.
  apply Forall_cons in Hall as [Ha Hall].
  destruct args as [|b args].
  - simpl commas. rewrite (collect_args_scan a 0 0) by exact Ha.
    simpl. rewrite app_nil_r, reverse_involutive, reverse_cons. reflexivity.
  - change (commas (a :: b :: args)) with (a ++ TComma :: commas (b :: args)).
    rewrite fresh_app, <- app_assoc.
    rewrite (collect_args_scan a 0 0) by exact Ha.
    simpl. rewrite app_nil_r, reverse_involutive.
    rewrite IH by done.
    rewrite reverse_cons, <- app_assoc. reflexivity.
Qed.

(** ** One replacement step *)

Lemma subst_no_parameter exp env (b : list token) :
  (∀ p, TId p ∈ b → assoc p env = None) →
  subst exp env b = Some (fresh b).
Proof.
  induction b as [|t b IH]; intros Hb; [done|].
  assert (IH' : subst exp env b = Some (fresh b)).
  { apply IH. intros p Hp. apply Hb. by right. }
  destruct t; simpl; rewrite ?IH'; try done.
  rewrite (Hb x) by left. reflexivity.
Qed.

(** An invocation whose arguments fit the parameters, of a macro whose body
    mentions none of them, is replaced by the body; the arguments are gone
    without having been looked at. *)
Lemma expand_invocation M f ps v body env (args : list (list token)) fuel rest :
  M !! f = Some (FunMacro ps v body) →
  args ≠ [] → Forall is_arg args →
  bind_args ps v (map fresh args) = Some env →
  (∀ p, TId p ∈ body → assoc p env = None) →
  expand M (S fuel) (fresh (call f args) ++ rest)
  = expand M fuel (paint [f] (fresh body) ++ rest).
Proof.
  intros HM Hne Hall Hbind Hbody.
  unfold call. simpl fresh. simpl app.
  cbn [expand]. rewrite bool_decide_eq_false_2 by apply not_elem_of_nil.
  rewrite HM. rewrite fresh_app, <- app_assoc. simpl fresh. simpl app.
  rewrite collect_args_commas by done. simpl.
  rewrite Hbind. simpl.
  rewrite subst_no_parameter by done. reflexivity.
Qed.

(** ** The six substituted operations, one step each *)

Local Ltac no_identifier H :=
  repeat (apply elem_of_cons in H as [H|H]; [try discriminate|]);
  try (by apply elem_of_nil in H).

Lemma step_snprintf (args : list (list token)) fuel rest :
  (3 ≤ length args)%nat → Forall is_arg args →
  expand (macros stdio_env) (S fuel) (fresh (call "snprintf" args) ++ rest)
  = expand (macros stdio_env) fuel ((TNum 0, ["snprintf"]) :: rest).
Proof.
  intros Hlen Hall.
  destruct args as [|a1 [|a2 [|a3 args]]]; simpl in Hlen; try lia.
  erewrite expand_invocation; cycle 1;
    [apply macro_snprintf | done | done | | | reflexivity].
  - reflexivity.
  - intros p Hp. no_identifier Hp.
Qed.

Lemma step_vsnprintf (args : list (list token)) fuel rest :
  length args = 4%nat → Forall is_arg args →
  expand (macros stdio_env) (S fuel) (fresh (call "vsnprintf" args) ++ rest)
  = expand (macros stdio_env) fuel ((TNum 0, ["vsnprintf"]) :: rest).
Proof.
  intros Hlen Hall.
  destruct args as [|a1 [|a2 [|a3 [|a4 [|]]]]]; try discriminate.
  erewrite expand_invocation; cycle 1;
    [apply macro_vsnprintf | done | done | reflexivity | | reflexivity].
  intros p Hp. no_identifier Hp.
Qed.

Lemma step_fputs (args : list (list token)) fuel rest :
  length args = 2%nat → Forall is_arg args →
  expand (macros stdio_env) (S fuel) (fresh (call "fputs" args) ++ rest)
  = expand (macros stdio_env) fuel ((TNum 0, ["fputs"]) :: rest).
Proof.
  intros Hlen Hall.
  destruct args as [|a1 [|a2 [|]]]; try discriminate.
  erewrite expand_invocation; cycle 1;
    [apply macro_fputs | done | done | reflexivity | | reflexivity].
  intros p Hp. no_identifier Hp.
Qed.

Lemma step_fputc (args : list (list token)) fuel rest :
  length args = 2%nat → Forall is_arg args →
  expand (macros stdio_env) (S fuel) (fresh (call "fputc" args) ++ rest)
  = expand (macros stdio_env) fuel ((TNum 0, ["fputc"]) :: rest).
Proof.
  intros Hlen Hall.
  destruct args as [|a1 [|a2 [|]]]; try discriminate.
  erewrite expand_invocation; cycle 1;
    [apply macro_fputc | done | done | reflexivity | | reflexivity].
  intros p Hp. no_identifier Hp.
Qed.

Lemma step_fdopen (args : list (list token)) fuel rest :
  length args = 2%nat → Forall is_arg args →
  expand (macros stdio_env) (S fuel) (fresh (call "fdopen" args) ++ rest)
  = expand (macros stdio_env) fuel ((TId "NULL", ["fdopen"]) :: rest).
Proof.
  intros Hlen Hall.
  destruct args as [|a1 [|a2 [|]]]; try discriminate.
  erewrite expand_invocation; cycle 1;
    [apply macro_fdopen | done | done | reflexivity | | reflexivity].
  intros p Hp. apply list_elem_of_singleton in Hp. by simplify_eq.
Qed.

Lemma step_fclose (args : list (list token)) fuel rest :
  length args = 1%nat → Forall is_arg args →
  expand (macros stdio_env) (S fuel) (fresh (call "fclose" args) ++ rest)
  = expand (macros stdio_env) fuel ((TNum 0, ["fclose"]) :: rest).
Proof.
  intros Hlen Hall.
  destruct args as [|a1 [|]]; try discriminate.
  erewrite expand_invocation; cycle 1;
    [apply macro_fclose | done | done | reflexivity | | reflexivity].
  intros p Hp. no_identifier Hp.
Qed.

(** ** From tokens to values *)

Lemma resolved_base ds t :
  match unqual t with CNamed _ => False | _ => True end →
  resolved ds t = Some (unqual t).
Proof.
  unfold resolved. generalize (length ds) as fuel. intros fuel Ht.
  destruct fuel; simpl; destruct (unqual t); done.
Qed.

Local Ltac resolve_base :=
  repeat match goal with
         | |- context [resolved ?ds ?t] =>
             rewrite (resolved_base ds t) by exact I
         end.

(** The constant zero, in any scope and any state. *)
Lemma run_zero ext env fuel ts st n :
  cpp (macros env) fuel ts = Some [TNum 0] → fuel = (32 + n)%nat →
  run ext env fuel ts st = Some (VInt 0, st).
Proof. intros Hcpp ->. unfold run. rewrite Hcpp. reflexivity. Qed.

Lemma parse_zero tn n : parse tn (32 + n) [TNum 0] = Some (EConst 0).
Proof. reflexivity. Qed.

Lemma parse_NULL tn n :
  parse tn (32 + n) NULL_body = Some (ECast (CPtr CVoid) (EConst 0)).
Proof. reflexivity. Qed.

(** The null pointer, in any scope and any state. *)
Lemma run_null ext env fuel ts st n :
  cpp (macros env) fuel ts = Some NULL_body → fuel = (32 + n)%nat →
  run ext env fuel ts st = Some (VNull, st).
Proof.
  intros Hcpp ->. unfold run. rewrite Hcpp.
  cbn [mbind option_bind]. rewrite parse_NULL.
  cbn [mbind option_bind type_of]. resolve_base. reflexivity.
Qed.

Local Ltac first_step L :=
  unfold cpp; rewrite <- (app_nil_r (fresh (call _ _)));
  match goal with
  | |- context [expand _ (32 + ?n)%nat _] =>
      change (32 + n)%nat with (S (31 + n))
  end;
  rewrite L by done.

Lemma cpp_snprintf (args : list (list token)) n :
  (3 ≤ length args)%nat → Forall is_arg args →
  cpp (macros stdio_env) (32 + n) (call "snprintf" args) = Some [TNum 0].
Proof. intros. first_step step_snprintf. reflexivity. Qed.

Lemma cpp_vsnprintf (args : list (list token)) n :
  length args = 4%nat → Forall is_arg args →
  cpp (macros stdio_env) (32 + n) (call "vsnprintf" args) = Some [TNum 0].
Proof. intros. first_step step_vsnprintf. reflexivity. Qed.

Lemma cpp_fputs (args : list (list token)) n :
  length args = 2%nat → Forall is_arg args →
  cpp (macros stdio_env) (32 + n) (call "fputs" args) = Some [TNum 0].
Proof. intros. first_step step_fputs. reflexivity. Qed.

Lemma cpp_fputc (args : list (list token)) n :
  length args = 2%nat → Forall is_arg args →
  cpp (macros stdio_env) (32 + n) (call "fputc" args) = Some [TNum 0].
Proof. intros. first_step step_fputc. reflexivity. Qed.

Lemma cpp_fclose (args : list (list token)) n :
  length args = 1%nat → Forall is_arg args →
  cpp (macros stdio_env) (32 + n) (call "fclose" args) = Some [TNum 0].
Proof. intros. first_step step_fclose. reflexivity. Qed.

Lemma cpp_NULL n : cpp (macros stdio_env) (32 + n) [TId "NULL"] = Some NULL_body.
Proof. vm_compute. reflexivity. Qed.

Lemma cpp_fdopen (args : list (list token)) n :
  length args = 2%nat → Forall is_arg args →
  cpp (macros stdio_env) (32 + n) (call "fdopen" args) = Some NULL_body.
Proof. intros. first_step step_fdopen. vm_compute. reflexivity. Qed.

(** ** Arguments that are themselves invocations *)

Lemma arg_scan_app (a b : list token) :
  ∀ d, arg_scan d (a ++ b) = arg_scan d a ≫= λ d', arg_scan d' b.
Proof.
  induction a as [|t a IH]; intros d; [done|].
  destruct t; simpl; try apply IH; destruct d; try done; apply IH.
Qed.

Lemma arg_scan_deeper (a : list token) :
  ∀ d d', arg_scan d a = Some d' → arg_scan (S d) a = Some (S d').
Proof.
  induction a as [|t a IH]; intros d d' Hs.
  - simpl in *. by simplify_eq.
  - destruct t; simpl in *; try (by apply IH);
      destruct d; try discriminate; by apply IH.
Qed.

Lemma arg_scan_commas (args : list (list token)) :
  Forall is_arg args → arg_scan 1 (commas args) = Some 1%nat.
Proof.
  induction args as [|a args IH]; intros Hall; [done|].
  apply Forall_cons in Hall as [Ha Hall].
  destruct args as [|b args].
  - by apply arg_scan_deeper.
  - change (commas (a :: b :: args)) with (a ++ TComma :: commas (b :: args)).
    rewrite arg_scan_app, (arg_scan_deeper a 0 0) by exact Ha.
    simpl. by apply IH.
Qed.

Lemma is_arg_call f (args : list (list token)) :
  Forall is_arg args → is_arg (call f args).
Proof.
  intros Hall. unfold is_arg, call. simpl.
  by rewrite arg_scan_app, arg_scan_commas.
Qed.

(** ** The substituted operations *)

(** C1, as the code has it: an invocation of snprintf with at least three
    arguments, or of vsnprintf with exactly four, whatever the arguments
    are, is replaced by the single token 0.  That token is a constant
    expression, and evaluating the invocation yields the integer zero and
    leaves every variable and the trace of calls as they were: no argument
    is evaluated. *)
Theorem C1_buffer_format_macros_are_zero :
  ∀ (f : string) (args : list (list token)),
    (f = "snprintf" ∧ (3 ≤ length args)%nat)
    ∨ (f = "vsnprintf" ∧ length args = 4%nat) →
    Forall is_arg args →
    ∀ env, macros env = macros stdio_env →
    ∀ n ext st,
      cpp (macros env) (32 + n) (call f args) = Some [TNum 0]
      ∧ parse (typedef_names (decls env)) (32 + n) [TNum 0] = Some (EConst 0)
      ∧ constant_expr (EConst 0) = true
      ∧ run ext env (32 + n) (call f args) st = Some (VInt 0, st).
Proof.
  intros f args Hf Hall env Henv n ext st.
  assert (Hcpp : cpp (macros env) (32 + n) (call f args) = Some [TNum 0]).
  { rewrite Henv. destruct Hf as [[-> Hlen]|[-> Hlen]].
    - by apply cpp_snprintf.
    - by apply cpp_vsnprintf. }
  split; [exact Hcpp|]. split; [apply parse_zero|]. split; [reflexivity|].
  by eapply run_zero.
Qed.

Lemma C1_buffer_format_macros_are_zero_witness :
  Forall is_arg [[TId "buf"]; [TNum 8]; [TStr "%d"]; [TId "x"; TPunct "++"]]
  ∧ run (λ _ _, VInt 0) stdio_env 32
      (call "snprintf"
         [[TId "buf"]; [TNum 8]; [TStr "%d"]; [TId "x"; TPunct "++"]])
      (State {[ "x" := VInt 5 ]} [])
    = Some (VInt 0, State {[ "x" := VInt 5 ]} []).
Proof.
  assert (Hall : Forall is_arg
            [[TId "buf"]; [TNum 8]; [TStr "%d"]; [TId "x"; TPunct "++"]])
    by (repeat constructor).
  split; [exact Hall|].
  apply (C1_buffer_format_macros_are_zero "snprintf"
           [[TId "buf"]; [TNum 8]; [TStr "%d"]; [TId "x"; TPunct "++"]]);
    [left; split; [reflexivity | simpl; lia] | exact Hall | reflexivity].
Defined.

(** C1 as stated fails on the number of arguments: vsnprintf has four
    parameters and no ellipsis, snprintf three parameters before its
    ellipsis; an invocation with fewer arguments is not replaced by 0, it
    is rejected. *)
Lemma C1_wrong_argument_count :
  Forall is_arg [[TId "buf"]; [TNum 8]; [TStr "%d"]]
  ∧ Forall is_arg [[TId "buf"]; [TNum 8]]
  ∧ (∀ fuel, cpp (macros stdio_env) fuel
               (call "vsnprintf" [[TId "buf"]; [TNum 8]; [TStr "%d"]]) = None)
  ∧ (∀ fuel, cpp (macros stdio_env) fuel
               (call "snprintf" [[TId "buf"]; [TNum 8]]) = None).
Proof.
  split; [repeat constructor|]. split; [repeat constructor|].
  split; intros [|fuel]; vm_compute; reflexivity.
Qed.

(** C2: for any two argument lists of fputs, and any two of fputc, the
    invocations are replaced by the same single token 0; the arguments,
    the stream among them, are dropped with the replacement.  Evaluation
    yields zero and the state it started from, whichever arguments were
    written. *)
Theorem C2_stream_write_macros_ignore_arguments :
  ∀ (f : string) (args1 args2 : list (list token)),
    f = "fputs" ∨ f = "fputc" →
    length args1 = 2%nat → Forall is_arg args1 →
    length args2 = 2%nat → Forall is_arg args2 →
    ∀ env, macros env = macros stdio_env →
    ∀ n ext st,
      cpp (macros env) (32 + n) (call f args1) = Some [TNum 0]
      ∧ cpp (macros env) (32 + n) (call f args2) = Some [TNum 0]
      ∧ run ext env (32 + n) (call f args1) st = Some (VInt 0, st)
      ∧ run ext env (32 + n) (call f args2) st
        = run ext env (32 + n) (call f args1) st.
Proof.
  intros f args1 args2 Hf Hl1 Ha1 Hl2 Ha2 env Henv n ext st.
  assert (Hcpp : ∀ args, length args = 2%nat → Forall is_arg args →
            cpp (macros env) (32 + n) (call f args) = Some [TNum 0]).
  { intros args Hl Ha. rewrite Henv. destruct Hf as [-> | ->].
    - by apply cpp_fputs.
    - by apply cpp_fputc. }
  assert (Hrun : ∀ args, length args = 2%nat → Forall is_arg args →
            run ext env (32 + n) (call f args) st = Some (VInt 0, st)).
  { intros args Hl Ha. eapply run_zero; [by apply Hcpp | reflexivity]. }
  repeat split; try (by apply Hcpp); try (by apply Hrun).
  by rewrite !Hrun.
Qed.

Lemma C2_stream_write_macros_ignore_arguments_witness :
  Forall is_arg [[TId "x"; TPunct "++"]; [TId "stderr"]]
  ∧ Forall is_arg [[TNum 10]; [TId "fdopen"; TLParen; TNum 2; TComma; TStr "w"; TRParen]]
  ∧ run (λ _ _, VInt 0) stdio_env 32
      (call "fputc" [[TNum 10];
         [TId "fdopen"; TLParen; TNum 2; TComma; TStr "w"; TRParen]])
      (State {[ "x" := VInt 5 ]} [])
    = run (λ _ _, VInt 0) stdio_env 32
        (call "fputc" [[TId "x"; TPunct "++"]; [TId "stderr"]])
        (State {[ "x" := VInt 5 ]} []).
Proof.
  assert (H1 : Forall is_arg [[TId "x"; TPunct "++"]; [TId "stderr"]])
    by (repeat constructor).
  assert (H2 : Forall is_arg [[TNum 10];
            [TId "fdopen"; TLParen; TNum 2; TComma; TStr "w"; TRParen]])
    by (repeat constructor).
  split; [exact H1|]. split; [exact H2|].
  apply (C2_stream_write_macros_ignore_arguments "fputc"
           [[TId "x"; TPunct "++"]; [TId "stderr"]]
           [[TNum 10];
            [TId "fdopen"; TLParen; TNum 2; TComma; TStr "w"; TRParen]]);
    [right; reflexivity | reflexivity | exact H1 | reflexivity | exact H2
    | reflexivity].
Defined.

(** The same argument outside the macro is evaluated: alone, the
    increment changes the variable; as an argument of fprintf, which is
    not substituted, it does so too, and the call is recorded. *)
Example argument_evaluated_elsewhere :
  let env := declare (VarDefn "x" CInt) stdio_env in
  let st := State {[ "x" := VInt 5 ]} [] in
  run (λ _ _, VInt 0) env 32 [TId "x"; TPunct "++"] st
  = Some (VInt 5, State {[ "x" := VInt 6 ]} [])
  ∧ run (λ _ _, VInt 0) env 32
      (call "fprintf" [[TId "stderr"]; [TStr "%d"]; [TId "x"; TPunct "++"]])
      (State (<[ "stderr" := VAddr 16 ]> (vars st)) [])
    = Some (VInt 0,
            State (<[ "stderr" := VAddr 16 ]> {[ "x" := VInt 6 ]})
                  [("fprintf", [VAddr 16; VStrLit "%d"; VInt 5])])
  ∧ run (λ _ _, VInt 0) env 32
      (call "fputc" [[TId "x"; TPunct "++"]; [TId "stderr"]]) st
    = Some (VInt 0, st).
Proof. repeat split; vm_compute; reflexivity. Qed.

(** C3: an invocation of fdopen with its two arguments is replaced by the
    replacement of NULL, the null pointer constant; one of fclose with its
    argument by the token 0.  Evaluating either leaves the state as it
    was: no argument is evaluated, nothing is called, nothing is stored. *)
Theorem C3_stream_lifecycle_macros :
  ∀ (fd mode stream : list token),
    is_arg fd → is_arg mode → is_arg stream →
    ∀ env, macros env = macros stdio_env →
    ∀ n ext st,
      cpp (macros env) (32 + n) (call "fdopen" [fd; mode])
      = cpp (macros env) (32 + n) [TId "NULL"]
      ∧ cpp (macros env) (32 + n) (call "fdopen" [fd; mode]) = Some NULL_body
      ∧ cpp (macros env) (32 + n) (call "fclose" [stream]) = Some [TNum 0]
      ∧ run ext env (32 + n) (call "fdopen" [fd; mode]) st = Some (VNull, st)
      ∧ run ext env (32 + n) (call "fclose" [stream]) st = Some (VInt 0, st).
Proof.
  intros fd mode stream Hfd Hmode Hstream env Henv n ext st.
  assert (Hopen : cpp (macros env) (32 + n) (call "fdopen" [fd; mode])
                  = Some NULL_body).
  { rewrite Henv. apply cpp_fdopen; [done | by repeat constructor]. }
  assert (Hclose : cpp (macros env) (32 + n) (call "fclose" [stream])
                   = Some [TNum 0]).
  { rewrite Henv. apply cpp_fclose; [done | by repeat constructor]. }
  split; [rewrite Hopen, Henv; symmetry; apply cpp_NULL|].
  split; [exact Hopen|]. split; [exact Hclose|].
  split; [eapply run_null | eapply run_zero]; (exact Hopen || exact Hclose || reflexivity).
Qed.

Lemma C3_stream_lifecycle_macros_witness :
  is_arg [TId "fd"; TPunct "++"] ∧ is_arg [TStr "w"] ∧ is_arg [TId "f"]
  ∧ run (λ _ _, VInt 0) stdio_env 32
      (call "fdopen" [[TId "fd"; TPunct "++"]; [TStr "w"]])
      (State {[ "fd" := VInt 1 ]} [])
    = Some (VNull, State {[ "fd" := VInt 1 ]} []).
Proof.
  split; [reflexivity|]. split; [reflexivity|]. split; [reflexivity|].
  apply (C3_stream_lifecycle_macros
           [TId "fd"; TPunct "++"] [TStr "w"] [TId "f"]
           eq_refl eq_refl eq_refl stdio_env eq_refl 0).
Defined.

(** ** The null sentinel and the stream that never opens *)

Lemma type_of_NULL ds : type_of ds NULL_expr = Some (CPtr CVoid).
Proof. unfold NULL_expr. cbn [type_of mbind option_bind]. by resolve_base. Qed.

Lemma assignable_NULL ds t u :
  resolved ds t = Some (CPtr u) → assignable ds NULL_expr (CPtr CVoid) t = true.
Proof. intros Ht. unfold assignable. rewrite Ht. by resolve_base. Qed.

Lemma parse_NULL_eq tn n :
  parse tn (32 + n) (NULL_body ++ [TPunct "=="] ++ NULL_body)
  = Some (EEq NULL_expr NULL_expr).
Proof. vm_compute. reflexivity. Qed.

Lemma parse_NULL_ne tn n :
  parse tn (32 + n) (NULL_body ++ [TPunct "!="] ++ NULL_body)
  = Some (ENe NULL_expr NULL_expr).
Proof. vm_compute. reflexivity. Qed.

Lemma type_of_NULL_compared ds :
  type_of ds (EEq NULL_expr NULL_expr) = Some CInt
  ∧ type_of ds (ENe NULL_expr NULL_expr) = Some CInt.
Proof.
  split; cbn [type_of]; rewrite !type_of_NULL; cbn [mbind option_bind];
    resolve_base; cbn [unqual is_ptr arith andb orb];
    by rewrite (assignable_NULL _ _ CVoid) by by resolve_base.
Qed.

Lemma eval_NULL_compared ext st :
  eval ext (EEq NULL_expr NULL_expr) st = Some (VInt 1, st)
  ∧ eval ext (ENe NULL_expr NULL_expr) st = Some (VInt 0, st).
Proof. split; reflexivity. Qed.

Lemma run_phases ext env fuel ts st ts' e t :
  cpp (macros env) fuel ts = Some ts' →
  parse (typedef_names (decls env)) fuel ts' = Some e →
  type_of (decls env) e = Some t →
  run ext env fuel ts st = eval ext e st.
Proof.
  intros Hcpp Hparse Htype. unfold run.
  rewrite Hcpp. cbn [mbind option_bind]. rewrite Hparse.
  cbn [mbind option_bind]. rewrite Htype. reflexivity.
Qed.

(** The result of a comparison of two null sentinels, [c] telling what the
    operator makes of equal operands. *)
Lemma run_compare_NULL ext env fuel ts st n op c :
  (op = "==" ∧ c = 1%Z) ∨ (op = "!=" ∧ c = 0%Z) →
  cpp (macros env) fuel ts = Some (NULL_body ++ [TPunct op] ++ NULL_body) →
  fuel = (32 + n)%nat →
  run ext env fuel ts st = Some (VInt c, st).
Proof.
  intros Hop Hcpp ->.
  destruct (type_of_NULL_compared (decls env)) as [Heq Hne].
  destruct (eval_NULL_compared ext st) as [Heq' Hne'].
  destruct Hop as [[-> ->]|[-> ->]].
  - rewrite <- Heq'. eapply run_phases; [exact Hcpp | apply parse_NULL_eq | exact Heq].
  - rewrite <- Hne'. eapply run_phases; [exact Hcpp | apply parse_NULL_ne | exact Hne].
Qed.

Lemma cpp_fdopen_compared (fd mode : list token) op n :
  is_arg fd → is_arg mode → op = "==" ∨ op = "!=" →
  cpp (macros stdio_env) (32 + n)
    (call "fdopen" [fd; mode] ++ [TPunct op; TId "NULL"])
  = Some (NULL_body ++ [TPunct op] ++ NULL_body).
Proof.
  intros Hfd Hmode Hop. unfold cpp. rewrite fresh_app.
  change (32 + n)%nat with (S (31 + n)).
  rewrite step_fdopen by (done || by repeat constructor).
  destruct Hop as [-> | ->]; vm_compute; reflexivity.
Qed.

Lemma cpp_NULL_compared op n :
  op = "==" ∨ op = "!=" →
  cpp (macros stdio_env) (32 + n) [TId "NULL"; TPunct op; TId "NULL"]
  = Some (NULL_body ++ [TPunct op] ++ NULL_body).
Proof. intros [-> | ->]; vm_compute; reflexivity. Qed.

Lemma run_fdopen_compared ext env (fd mode : list token) op c n st :
  (op = "==" ∧ c = 1%Z) ∨ (op = "!=" ∧ c = 0%Z) →
  is_arg fd → is_arg mode → macros env = macros stdio_env →
  run ext env (32 + n) (call "fdopen" [fd; mode] ++ [TPunct op; TId "NULL"]) st
  = Some (VInt c, st).
Proof.
  intros Hop Hfd Hmode Henv.
  eapply run_compare_NULL; [exact Hop | | reflexivity].
  rewrite Henv. apply cpp_fdopen_compared; [done | done |].
  destruct Hop as [[-> _]|[-> _]]; [by left | by right].
Qed.

(** C7: NULL is replaced by a null pointer constant of type pointer to
    void.  It may stand wherever a pointer is expected, pointer to FILE
    included.  Compared with itself it is equal, and so is the result of
    fdopen, for every two arguments. *)
Theorem C7_null_sentinel :
  ∀ (x y : list token), is_arg x → is_arg y →
  ∀ env, macros env = macros stdio_env →
  ∀ (t u : ctype), resolved (decls env) t = Some (CPtr u) →
  ∀ n ext st,
    cpp (macros env) (32 + n) [TId "NULL"] = Some NULL_body
    ∧ parse (typedef_names (decls env)) (32 + n) NULL_body = Some NULL_expr
    ∧ null_constant NULL_expr = true
    ∧ type_of (decls env) NULL_expr = Some (CPtr CVoid)
    ∧ assignable (decls env) NULL_expr (CPtr CVoid) t = true
    ∧ assignable (decls env) NULL_expr (CPtr CVoid) (CPtr (CNamed "FILE"))
      = true
    ∧ run ext env (32 + n) [TId "NULL"; TPunct "=="; TId "NULL"] st
      = Some (VInt 1, st)
    ∧ run ext env (32 + n)
        (call "fdopen" [x; y] ++ [TPunct "=="; TId "NULL"]) st
      = Some (VInt 1, st).
Proof.
  intros x y Hx Hy env Henv t u Ht n ext st.
  split; [rewrite Henv; apply cpp_NULL|].
  split; [apply parse_NULL|].
  split; [reflexivity|].
  split; [apply type_of_NULL|].
  split; [by eapply assignable_NULL|].
  split; [eapply assignable_NULL; by resolve_base|].
  split.
  - apply (run_compare_NULL ext env (32 + n) _ st n "==" 1
             (or_introl (conj eq_refl eq_refl))); [|reflexivity].
    rewrite Henv. apply cpp_NULL_compared. left. reflexivity.
  - exact (run_fdopen_compared ext env x y "==" 1 n st
             (or_introl (conj eq_refl eq_refl)) Hx Hy Henv).
Qed.

Lemma C7_null_sentinel_witness :
  is_arg [TId "fd"] ∧ is_arg [TStr "w"]
  ∧ resolved (decls stdio_env) (CPtr (CNamed "FILE")) = Some (CPtr (CNamed "FILE"))
  ∧ run (λ _ _, VInt 0) stdio_env 32
      (call "fdopen" [[TId "fd"]; [TStr "w"]] ++ [TPunct "=="; TId "NULL"])
      (State ∅ [])
    = Some (VInt 1, State ∅ []).
Proof.
  split; [reflexivity|]. split; [reflexivity|]. split; [reflexivity|].
  apply (C7_null_sentinel [TId "fd"] [TStr "w"] eq_refl eq_refl
           stdio_env eq_refl (CPtr (CNamed "FILE")) (CNamed "FILE") eq_refl 0).
Defined.

(** C9: for every two arguments fdopen yields the null pointer and never
    the address of a stream; the test of its result against NULL holds (and
    the test for difference does not), so client code takes the branch of
    failure; fclose of that result yields zero.  None of it touches the
    state. *)
Theorem C9_fdopen_always_fails_fclose_succeeds :
  ∀ (fd mode : list token), is_arg fd → is_arg mode →
  ∀ env, macros env = macros stdio_env →
  ∀ n ext st,
    run ext env (32 + n) (call "fdopen" [fd; mode]) st = Some (VNull, st)
    ∧ (∀ a st', run ext env (32 + n) (call "fdopen" [fd; mode]) st
                ≠ Some (VAddr a, st'))
    ∧ run ext env (32 + n)
        (call "fdopen" [fd; mode] ++ [TPunct "=="; TId "NULL"]) st
      = Some (VInt 1, st)
    ∧ run ext env (32 + n)
        (call "fdopen" [fd; mode] ++ [TPunct "!="; TId "NULL"]) st
      = Some (VInt 0, st)
    ∧ run ext env (32 + n) (call "fclose" [call "fdopen" [fd; mode]]) st
      = Some (VInt 0, st).
Proof.
  intros fd mode Hfd Hmode env Henv n ext st.
  assert (Hopen : run ext env (32 + n) (call "fdopen" [fd; mode]) st
                  = Some (VNull, st)).
  { eapply run_null; [|reflexivity].
    rewrite Henv. apply cpp_fdopen; [done | by repeat constructor]. }
  split; [exact Hopen|].
  split; [intros a st'; rewrite Hopen; discriminate|].
  split.
  { exact (run_fdopen_compared ext env fd mode "==" 1 n st
             (or_introl (conj eq_refl eq_refl)) Hfd Hmode Henv). }
  split.
  { exact (run_fdopen_compared ext env fd mode "!=" 0 n st
             (or_intror (conj eq_refl eq_refl)) Hfd Hmode Henv). }
  eapply run_zero; [|reflexivity].
  rewrite Henv. apply cpp_fclose; [done|].
  constructor; [|constructor]. apply is_arg_call. by repeat constructor.
Qed.

Lemma C9_fdopen_always_fails_fclose_succeeds_witness :
  is_arg [TNum 2] ∧ is_arg [TStr "w"]
  ∧ run (λ _ _, VInt 0) stdio_env 32
      (call "fclose" [call "fdopen" [[TNum 2]; [TStr "w"]]]) (State ∅ [])
    = Some (VInt 0, State ∅ []).
Proof.
  split; [reflexivity|]. split; [reflexivity|].
  apply (C9_fdopen_always_fails_fclose_succeeds [TNum 2] [TStr "w"]
           eq_refl eq_refl stdio_env eq_refl 0).
Defined.

(** ** The declarations: FILE, size_t, stderr, fprintf *)

(** Client declarations after the header do not change what the header's
    type names stand for. *)
Lemma resolved_FILE ds' :
  resolved (decls stdio_env ++ ds') (CNamed "FILE") = Some (CStruct []).
Proof. unfold resolved. rewrite stdio_decls. reflexivity. Qed.

Lemma resolved_size_t ds' :
  resolved (decls stdio_env ++ ds') (CNamed "size_t") = Some CULong.
Proof. unfold resolved. rewrite stdio_decls. reflexivity. Qed.

(** C6: FILE names a struct without members.  The type has one value, so
    two values of it cannot be told apart; and an expression that selects
    a member of a FILE, directly or through a pointer, has no type,
    whatever the member's name: the unit does not compile. *)
Theorem C6_FILE_is_opaque :
  ∀ (ds' : list decl) (e p : expr) (te tp u : ctype) (tg : target)
    (v1 v2 : value),
    let ds := decls stdio_env ++ ds' in
    type_of ds e = Some te → resolved ds te = resolved ds (CNamed "FILE") →
    type_of ds p = Some tp → resolved ds tp = Some (CPtr u) →
    resolved ds u = resolved ds (CNamed "FILE") →
    has_type tg v1 (CStruct []) = true → has_type tg v2 (CStruct []) = true →
    find_typedef (decls stdio_env) "FILE" = Some (CStruct [])
    ∧ resolved ds (CNamed "FILE") = Some (CStruct [])
    ∧ v1 = v2
    ∧ (∀ f, type_of ds (EMember e f) = None)
    ∧ (∀ f, type_of ds (EArrow p f) = None)
    ∧ (∀ n, compile (32 + n)
              [Include stdio_h;
               Fun "main" CInt [[TId "stderr"; TPunct "->"; TId "fd"]]]
            = inl TypeError).
Proof.
  intros ds' e p te tp u tg v1 v2 ds He Hte Hp Htp Hu Hv1 Hv2.
  subst ds. rewrite resolved_FILE in *.
  split; [reflexivity|]. split; [reflexivity|].
  split.
  { destruct v1 as [| | | |[|[]]], v2 as [| | | |[|[]]]; done. }
  split; [|split].
  - intros f. cbn [type_of]. rewrite He. cbn [mbind option_bind].
    rewrite Hte. reflexivity.
  - intros f. cbn [type_of]. rewrite Hp. cbn [mbind option_bind].
    rewrite Htp. cbn [mbind option_bind]. rewrite Hu. reflexivity.
  - intros n. vm_compute. reflexivity.
Qed.

Lemma C6_FILE_is_opaque_witness :
  type_of (decls stdio_env ++ []) (EDeref (EVar "stderr")) = Some (CNamed "FILE")
  ∧ type_of (decls stdio_env ++ []) (EVar "stderr") = Some (CPtr (CNamed "FILE"))
  ∧ has_type Wasm32 (VStruct []) (CStruct []) = true
  ∧ type_of (decls stdio_env ++ []) (EMember (EDeref (EVar "stderr")) "fd") = None
  ∧ type_of (decls stdio_env ++ []) (EArrow (EVar "stderr") "fd") = None.
Proof.
  split; [reflexivity|]. split; [reflexivity|]. split; [reflexivity|].
  destruct (C6_FILE_is_opaque [] (EDeref (EVar "stderr")) (EVar "stderr")
              (CNamed "FILE") (CPtr (CNamed "FILE")) (CNamed "FILE")
              Wasm32 (VStruct []) (VStruct [])
              eq_refl eq_refl eq_refl eq_refl eq_refl eq_refl eq_refl)
    as (_ & _ & _ & Hm & Ha & _).
  split; [apply Hm | apply Ha].
Defined.

(** C8: size_t names unsigned long.  The type is unsigned: its values are
    the integers from zero up to two to its width, and conversion to it
    wraps into that range.  On both WebAssembly targets its width is the
    width of a pointer. *)
Theorem C8_size_t_unsigned_pointer_width :
  ∀ (tg : target) (v : value) (ds' : list decl) (z : Z),
    has_type tg v CULong = true →
    find_typedef (decls stdio_env) "size_t" = Some CULong
    ∧ resolved (decls stdio_env ++ ds') (CNamed "size_t") = Some CULong
    ∧ unsigned CULong = true
    ∧ bits tg CULong = Some (pointer_bits tg)
    ∧ bits tg CULong = bits tg (CPtr CVoid)
    ∧ (∃ n, v = VInt n ∧ (0 ≤ n < 2 ^ pointer_bits tg)%Z)
    ∧ (∃ m, convert tg CULong z = Some m ∧ (0 ≤ m < 2 ^ pointer_bits tg)%Z
            ∧ has_type tg (VInt m) CULong = true).
Proof.
  intros tg v ds' z Hv.
  split; [reflexivity|]. split; [apply resolved_size_t|].
  split; [reflexivity|]. split; [by destruct tg|]. split; [by destruct tg|].
  split.
  - destruct v as [n| | | |]; try discriminate. exists n. split; [done|].
    simpl in Hv. apply bool_decide_eq_true in Hv. by destruct tg.
  - exists (z mod 2 ^ long_bits tg)%Z.
    assert (Hr : (0 ≤ z mod 2 ^ long_bits tg < 2 ^ long_bits tg)%Z)
      by (apply Z.mod_pos_bound; destruct tg; done).
    split; [reflexivity|]. split; [by destruct tg|].
    simpl. by apply bool_decide_eq_true.
Qed.

Lemma C8_size_t_unsigned_pointer_width_witness :
  has_type Wasm32 (VInt 4294967295) CULong = true
  ∧ (∃ m, convert Wasm32 CULong (-1) = Some m
          ∧ (0 ≤ m < 2 ^ pointer_bits Wasm32)%Z
          ∧ has_type Wasm32 (VInt m) CULong = true).
Proof.
  split; [reflexivity|].
  apply (C8_size_t_unsigned_pointer_width Wasm32 (VInt 4294967295) [] (-1)
           eq_refl).
Defined.

(** ** The include guard *)

(** What one inclusion does to any state: if the guard macro is not yet
    defined and the inclusion is not inside a skipped group, the header's
    macros and declarations are added; otherwise nothing changes. *)
Lemma include_stdio_h_cases M ds cs :
  include stdio_h (PP M ds cs)
  = Some (if bool_decide (M !! "_STDIO_H" = None) && forallb id cs
          then PP (<["fclose" := FunMacro ["stream"] false [TNum 0]]>
                  (<["fdopen" := FunMacro ["fd"; "mode"] false [TId "NULL"]]>
                  (<["fputc" := FunMacro ["c"; "stream"] false [TNum 0]]>
                  (<["fputs" := FunMacro ["s"; "stream"] false [TNum 0]]>
                  (<["vsnprintf" :=
                       FunMacro ["str"; "size"; "format"; "ap"] false [TNum 0]]>
                  (<["snprintf" :=
                       FunMacro ["str"; "size"; "format"] true [TNum 0]]>
                  (<["NULL" := ObjMacro NULL_body]>
                  (<["_STDIO_H" := ObjMacro []]> M))))))))
                  (ds ++ decls stdio_env) cs
          else PP M ds cs).
Proof.
  destruct (bool_decide (M !! "_STDIO_H" = None)) eqn:Hb,
           (forallb id cs) eqn:Hcs;
    unfold include, stdio_h;
    repeat (cbn [pp_lines pp_line mbind option_bind macros decls conds
                 active forallb id andb];
            rewrite ?Hb, ?Hcs);
    rewrite bool_decide_eq_true_2 by reflexivity;
    rewrite <- ?app_assoc; reflexivity.
Qed.

Lemma include_again st st' :
  include stdio_h st = Some st' → include stdio_h st' = Some st'.
Proof.
  destruct st as [M ds cs]. rewrite include_stdio_h_cases.
  destruct (bool_decide (M !! "_STDIO_H" = None) && forallb id cs) eqn:Hc;
    intros [= <-].
  - rewrite include_stdio_h_cases.
    rewrite bool_decide_eq_false_2; [reflexivity|].
    by simplify_map_eq.
  - rewrite include_stdio_h_cases, Hc. reflexivity.
Qed.

Lemma include_n_again n st :
  include stdio_h st = Some st → include_n n stdio_h st = Some st.
Proof.
  intros Hst. induction n as [|n IH]; [done|].
  simpl. rewrite Hst. exact IH.
Qed.

Lemma compile_tops_again fuel n st d u :
  include stdio_h st = Some st →
  compile_tops fuel (replicate n (Include stdio_h)) (CS st d u)
  = inr (CS st d u).
Proof.
  intros Hst. induction n as [|n IH]; [done|].
  cbn [replicate compile_tops compile_top pp defs used]. rewrite Hst.
  rewrite drop_all.
  change (list_to_set (omap defined_by (@nil decl))) with (∅ : gset string).
  rewrite (left_id_L ∅ (∪)). exact IH.
Qed.

(** C10: a second inclusion of the header changes nothing, in whatever
    state the first one left; so one, two or any number of inclusions give
    the macros and declarations of a single one, no name is declared
    twice, and the unit compiles to the same (empty) object. *)
Theorem C10_inclusion_is_idempotent :
  ∀ (n : nat) (st st' : pp_state),
    (1 ≤ n)%nat → include stdio_h st = Some st' →
    include stdio_h st' = Some st'
    ∧ include_n n stdio_h st = Some st'
    ∧ include_n n stdio_h pp_init = include_n 1 stdio_h pp_init
    ∧ include_n n stdio_h pp_init = Some stdio_env
    ∧ check_decls (decls stdio_env) = true
    ∧ (∀ fuel, compile fuel (replicate n (Include stdio_h))
               = compile fuel [Include stdio_h])
    ∧ (∀ fuel, compile fuel (replicate n (Include stdio_h)) = inr (Obj ∅ ∅)).
Proof.
  intros n st st' Hn Hst.
  destruct n as [|n]; [lia|].
  pose proof (include_again _ _ Hst) as Hst'.
  pose proof (include_again _ _ include_stdio_h) as Henv.
  assert (Hc : ∀ fuel, compile fuel (replicate (S n) (Include stdio_h))
                       = inr (Obj ∅ ∅)).
  { intros fuel. unfold compile. simpl. rewrite include_stdio_h.
    rewrite compile_tops_again by exact Henv. reflexivity. }
  split; [exact Hst'|].
  split; [simpl; rewrite Hst; by apply include_n_again|].
  split; [simpl; rewrite include_stdio_h; by apply include_n_again|].
  split; [simpl; rewrite include_stdio_h; by apply include_n_again|].
  split; [reflexivity|].
  split; [|exact Hc].
  intros fuel. rewrite Hc. reflexivity.
Qed.

Lemma C10_inclusion_is_idempotent_witness :
  (1 ≤ 3)%nat ∧ include stdio_h pp_init = Some stdio_env
  ∧ include_n 3 stdio_h pp_init = Some stdio_env.
Proof.
  split; [lia|]. split; [exact include_stdio_h|].
  apply (C10_inclusion_is_idempotent 3 pp_init stdio_env);
    [lia | exact include_stdio_h].
Defined.

(** Without the guard the second inclusion declares FILE again, and the
    unit is rejected. *)
Example unguarded_header_twice :
  compile 0 [Include (take 12 (drop 1 stdio_h))] = inr (Obj ∅ ∅)
  ∧ compile 0 [Include (take 12 (drop 1 stdio_h));
               Include (take 12 (drop 1 stdio_h))] = inl Redeclaration.
Proof. split; vm_compute; reflexivity. Qed.

(** ** Definitions: where they come from *)

(** The declarations an inclusion adds are among those of the file's
    lines. *)
Lemma pp_lines_decls (h : list line) :
  ∀ st st', pp_lines h st = Some st' →
    ∃ k, decls st' = decls st ++ k ∧ Forall (λ d, Declaration d ∈ h) k.
Proof.
  induction h as [|l h IH]; intros st st' Hh; simpl in Hh.
  - simplify_eq. exists []. by rewrite app_nil_r.
  - destruct (pp_line l st) as [st1|] eqn:Hl; [|done]. simpl in Hh.
    destruct (IH _ _ Hh) as (k & Hk & Hall).
    assert (∃ k1, decls st1 = decls st ++ k1
                  ∧ Forall (λ d, l = Declaration d) k1) as (k1 & Hk1 & Hall1).
    { destruct l as [x| |x m|d]; simpl in Hl.
      - simplify_eq. exists []. by rewrite app_nil_r.
      - destruct (conds st); simplify_eq. exists []. by rewrite app_nil_r.
      - destruct (active st); simplify_eq; exists []; by rewrite app_nil_r.
      - destruct (active st); simplify_eq.
        + exists [d]. by repeat constructor.
        + exists []. by rewrite app_nil_r. }
    exists (k1 ++ k). split; [by rewrite Hk, Hk1, app_assoc|].
    apply Forall_app. split.
    + eapply Forall_impl; [exact Hall1|]. intros d ->. left.
    + eapply Forall_impl; [exact Hall|]. intros d Hd. by right.
Qed.

Lemma include_definitions h st st' (x : string) :
  include h st = Some st' →
  x ∈ omap defined_by (drop (length (decls st)) (decls st')) →
  x ∈ omap line_definition h.
Proof.
  unfold include. intros Hinc Hx.
  destruct (pp_lines h st) as [st1|] eqn:Hh; [|done]. simpl in Hinc.
  case_bool_decide; [|done]. simplify_eq.
  destruct (pp_lines_decls _ _ _ Hh) as (k & Hk & Hall).
  rewrite Hk, drop_app_length in Hx.
  apply list_elem_of_omap in Hx as (d & Hd & Hdx).
  apply list_elem_of_omap. exists (Declaration d). split; [|exact Hdx].
  by apply (proj1 (Forall_forall _ _) Hall).
Qed.

(** Every symbol a unit defines is defined by one of its parts. *)
Lemma compile_tops_defined fuel (tu : list top) :
  ∀ cs cs' (x : string),
    compile_tops fuel tu cs = inr cs' → x ∈ defs cs' →
    x ∈ defs cs ∨ ∃ t, t ∈ tu ∧ x ∈ top_definitions t.
Proof.
  induction tu as [|t tu IH]; intros cs cs' x Hc Hx; simpl in Hc.
  - simplify_eq. by left.
  - destruct (compile_top fuel t cs) as [|cs1] eqn:Ht; [done|].
    destruct (IH _ _ _ Hc Hx) as [H1|(t' & Ht' & Hxt')].
    2: { right. exists t'. split; [by right | done]. }
    destruct t as [h|y ty|y ret body]; simpl in Ht.
    + destruct (include h (pp cs)) as [st|] eqn:Hinc; [|done].
      simplify_eq. simpl in H1. apply elem_of_union in H1 as [H1|H1].
      * right. exists (Include h). split; [left|].
        apply elem_of_list_to_set in H1. by eapply include_definitions.
      * by left.
    + simplify_eq. simpl in H1. apply elem_of_union in H1 as [H1|H1].
      * right. exists (Var y ty). split; [left|].
        apply elem_of_singleton in H1 as ->. simpl. left.
      * by left.
    + destruct (compile_body fuel _ body); [done|]. simplify_eq.
      simpl in H1. apply elem_of_union in H1 as [H1|H1].
      * right. exists (Fun y ret body). split; [left|].
        apply elem_of_singleton in H1 as ->. simpl. left.
      * by left.
Qed.

Lemma compile_defined fuel (tu : list top) o (x : string) :
  compile fuel tu = inr o → x ∈ defined o →
  ∃ t, t ∈ tu ∧ x ∈ top_definitions t.
Proof.
  unfold compile. intros Hc Hx.
  destruct (compile_tops fuel tu _) as [|cs] eqn:Htu; [done|].
  destruct (check_decls _); [|done]. simplify_eq. simpl in Hx.
  destruct (compile_tops_defined _ _ _ _ _ Htu Hx) as [H|H]; [|exact H].
  by apply elem_of_empty in H.
Qed.

(** The header alone compiles to an object without symbols. *)
Lemma compile_header_only fuel : compile fuel [Include stdio_h] = inr (Obj ∅ ∅).
Proof. vm_compute. reflexivity. Qed.

(** A header that holds a definition gives the symbol to the unit; this
    one holds none. *)
Example header_with_a_definition :
  compile 0 [Include [Declaration (VarDefn "stderr" (CPtr CVoid))]]
  = inr (Obj {[ "stderr" ]} ∅)
  ∧ top_definitions (Include stdio_h) = [].
Proof. split; vm_compute; reflexivity. Qed.

(** C5: the header declares stderr once, as an external object of type
    pointer to FILE, FILE being the struct without members: the handle the
    code passes around is that pointer.  The declaration is no definition
    and the header holds none: a unit that only includes it defines no
    symbol, and whatever stands before and after the inclusion, the unit's
    object defines stderr only if one of those other parts holds a
    definition of it.  Such a definition, of the declared type, can stand
    in the unit beside the header. *)
Theorem C5_stderr_declared_not_defined :
  ∀ (fuel : nat) (pre post : list top) (o : object),
    compile fuel (pre ++ Include stdio_h :: post) = inr o →
    (∀ t, t ∈ (pre ++ post) → "stderr" ∉ top_definitions t) →
    filter (λ d, decl_name d = "stderr") (decls stdio_env)
    = [ExternVar "stderr" (CPtr (CNamed "FILE"))]
    ∧ resolved (decls stdio_env) (CNamed "FILE") = Some (CStruct [])
    ∧ type_of (decls stdio_env) (EVar "stderr") = Some (CPtr (CNamed "FILE"))
    ∧ top_definitions (Include stdio_h) = []
    ∧ (∀ fuel', compile fuel' [Include stdio_h] = inr (Obj ∅ ∅))
    ∧ ("stderr" ∉ defined o)
    ∧ (∀ fuel', compile fuel'
                  [Include stdio_h; Var "stderr" (CPtr (CNamed "FILE"))]
                = inr (Obj {[ "stderr" ]} ∅)).
Proof.
  intros fuel pre post o Hc Hparts.
  split; [reflexivity|]. split; [reflexivity|]. split; [reflexivity|].
  split; [reflexivity|]. split; [apply compile_header_only|].
  split; [|intros fuel'; vm_compute; reflexivity].
  intros Hx.
  destruct (compile_defined _ _ _ _ Hc Hx) as (t & Ht & Hxt).
  apply elem_of_app in Ht as [Ht|Ht].
  - apply (Hparts t); [|exact Hxt]. apply elem_of_app. by left.
  - apply elem_of_cons in Ht as [->|Ht].
    + by apply elem_of_nil in Hxt.
    + apply (Hparts t); [|exact Hxt]. apply elem_of_app. by right.
Qed.

Lemma C5_stderr_declared_not_defined_witness :
  compile 32
    ([] ++ (Include stdio_h
            :: [Fun "main" CInt [call "fputs" [[TStr "x"]; [TId "stderr"]]]]))
  = inr (Obj {[ "main" ]} ∅)
  ∧ "stderr" ∉ defined (Obj {[ "main" ]} ∅).
Proof.
  assert (Hc : compile 32
            ([] ++ (Include stdio_h
                    :: [Fun "main" CInt
                          [call "fputs" [[TStr "x"]; [TId "stderr"]]]]))
          = inr (Obj {[ "main" ]} ∅)) by (vm_compute; reflexivity).
  split; [exact Hc|].
  apply (C5_stderr_declared_not_defined 32 []
           [Fun "main" CInt [call "fputs" [[TStr "x"]; [TId "stderr"]]]]
           (Obj {[ "main" ]} ∅) Hc).
  intros t Ht. apply list_elem_of_singleton in Ht as ->. simpl.
  intros H. apply list_elem_of_singleton in H. discriminate.
Defined.

(** * Further properties of the header *)

(** ** The macro table *)

Lemma stdio_macros :
  macros stdio_env
  = <["fclose" := FunMacro ["stream"] false [TNum 0]]>
    (<["fdopen" := FunMacro ["fd"; "mode"] false [TId "NULL"]]>
    (<["fputc" := FunMacro ["c"; "stream"] false [TNum 0]]>
    (<["fputs" := FunMacro ["s"; "stream"] false [TNum 0]]>
    (<["vsnprintf" := FunMacro ["str"; "size"; "format"; "ap"] false [TNum 0]]>
    (<["snprintf" := FunMacro ["str"; "size"; "format"] true [TNum 0]]>
    (<["NULL" := ObjMacro NULL_body]>
    (<["_STDIO_H" := ObjMacro []]> ∅))))))).
Proof. vm_compute. reflexivity. Qed.

(** The function-like macros of the header are the six of lines 12 to 17. *)
Lemma stdio_funmacros f ps v body :
  macros stdio_env !! f = Some (FunMacro ps v body) →
  (f = "snprintf" ∧ ps = ["str"; "size"; "format"] ∧ v = true ∧ body = [TNum 0])
  ∨ (f = "vsnprintf" ∧ ps = ["str"; "size"; "format"; "ap"] ∧ v = false
     ∧ body = [TNum 0])
  ∨ (f = "fputs" ∧ ps = ["s"; "stream"] ∧ v = false ∧ body = [TNum 0])
  ∨ (f = "fputc" ∧ ps = ["c"; "stream"] ∧ v = false ∧ body = [TNum 0])
  ∨ (f = "fdopen" ∧ ps = ["fd"; "mode"] ∧ v = false ∧ body = [TId "NULL"])
  ∨ (f = "fclose" ∧ ps = ["stream"] ∧ v = false ∧ body = [TNum 0]).
Proof.
  rewrite stdio_macros. intros H.
  repeat (apply lookup_insert_Some in H as [[<- H]|[_ H]];
          [simplify_eq; tauto|]).
  by rewrite lookup_empty in H.
Qed.

Local Ltac header_macro H :=
  let Hc := fresh "Hc" in
  pose proof (stdio_funmacros _ _ _ _ H) as Hc; clear H;
  destruct Hc as [Hc|[Hc|[Hc|[Hc|[Hc|Hc]]]]];
  destruct Hc as (-> & -> & -> & Hc);
  first [discriminate Hc | subst | clear Hc].

(** One step for any of them. *)
Lemma step_header_macro f ps v body (args : list (list token)) fuel rest :
  macros stdio_env !! f = Some (FunMacro ps v body) →
  Forall is_arg args → fits ps v (length args) →
  expand (macros stdio_env) (S fuel) (fresh (call f args) ++ rest)
  = expand (macros stdio_env) fuel (paint [f] (fresh body) ++ rest).
Proof.
  intros Hf Hall Hfits. header_macro Hf; unfold fits in Hfits; simpl in Hfits.
  - by apply step_snprintf.
  - by apply step_vsnprintf.
  - by apply step_fputs.
  - by apply step_fputc.
  - by apply step_fdopen.
  - by apply step_fclose.
Qed.

(** A fitting invocation gives what the macro's body gives. *)
Lemma cpp_header_macro f ps v body (args : list (list token)) n :
  macros stdio_env !! f = Some (FunMacro ps v body) →
  Forall is_arg args → fits ps v (length args) →
  cpp (macros stdio_env) (32 + n) (call f args)
  = cpp (macros stdio_env) (32 + n) body.
Proof.
  intros Hf Hall Hfits. unfold cpp at 1.
  rewrite <- (app_nil_r (fresh _)). change (32 + n)%nat with (S (31 + n)).
  rewrite (step_header_macro _ _ _ _ _ _ _ Hf Hall Hfits).
  clear Hfits. header_macro Hf; vm_compute; reflexivity.
Qed.

(** ** Invocations that do not fit *)

Lemma bind_args_misfit ps v (args : list (list token)) :
  ps ≠ [] → ¬ fits ps v (length args) →
  bind_args ps v (map fresh args) = None.
Proof.
  intros Hps Hfits. destruct ps as [|p ps]; [done|].
  unfold bind_args, fits in *. rewrite length_map.
  destruct v; case_decide; done.
Qed.

Lemma expand_misfit M f ps v body (args : list (list token)) fuel rest :
  M !! f = Some (FunMacro ps v body) →
  args ≠ [] → Forall is_arg args →
  bind_args ps v (map fresh args) = None →
  expand M (S fuel) (fresh (call f args) ++ rest) = None.
Proof.
  intros HM Hne Hall Hbind.
  unfold call. simpl fresh. simpl app.
  cbn [expand]. rewrite bool_decide_eq_false_2 by apply not_elem_of_nil.
  rewrite HM. rewrite fresh_app, <- app_assoc. simpl fresh. simpl app.
  rewrite collect_args_commas by done. simpl.
  rewrite Hbind. reflexivity.
Qed.

(** X1: an invocation of any of the six substituted operations with a
    number of arguments that does not fit its parameter list is rejected
    by the preprocessor, whatever the arguments are and however much fuel
    there is; with a number that fits it is replaced by the macro's
    constant.  An empty pair of parentheses counts as one empty argument,
    so it fits fclose and no other. *)
Theorem X1_argument_count_decides :
  ∀ (f : string) (ps : list string) (v : bool) (body : list token)
    (args : list (list token)),
    macros stdio_env !! f = Some (FunMacro ps v body) →
    args ≠ [] → Forall is_arg args →
    (¬ fits ps v (length args) →
       ∀ fuel, cpp (macros stdio_env) fuel (call f args) = None)
    ∧ (fits ps v (length args) →
       ∀ n, cpp (macros stdio_env) (32 + n) (call f args)
            = cpp (macros stdio_env) (32 + n) body)
    ∧ (∀ n, cpp (macros stdio_env) (32 + n) (call f [])
            = if decide (f = "fclose") then Some [TNum 0] else None).
Proof.
  intros f ps v body args Hf Hne Hall.
  assert (Hps : ps ≠ []) by (pose proof Hf as Hf'; by header_macro Hf').
  split; [|split].
  - intros Hfits [|fuel]; [reflexivity|]. unfold cpp.
    rewrite <- (app_nil_r (fresh _)).
    rewrite (expand_misfit _ _ _ _ _ _ _ _ Hf Hne Hall
               (bind_args_misfit _ _ _ Hps Hfits)).
    reflexivity.
  - intros Hfits n. by apply (cpp_header_macro _ ps v).
  - intros n. clear Hps. header_macro Hf; vm_compute; reflexivity.
Qed.

Lemma X1_argument_count_decides_witness :
  macros stdio_env !! "fputc" = Some (FunMacro ["c"; "stream"] false [TNum 0])
  ∧ Forall is_arg [[TId "c"]]
  ∧ ¬ fits ["c"; "stream"] false (length [[TId "c"]])
  ∧ cpp (macros stdio_env) 32 (call "fputc" [[TId "c"]]) = None.
Proof.
  assert (Hall : Forall is_arg [[TId "c"]]) by (repeat constructor).
  assert (Hmis : ¬ fits ["c"; "stream"] false (length [[TId "c"]]))
    by (unfold fits; simpl; lia).
  split; [exact macro_fputc|]. split; [exact Hall|]. split; [exact Hmis|].
  apply (X1_argument_count_decides "fputc" ["c"; "stream"] false [TNum 0]
           [[TId "c"]] macro_fputc); [discriminate | exact Hall | exact Hmis].
Defined.

(** ** A substituted name that is not invoked *)

Lemma expand_not_invoked M f ps v body (t : token) fuel rest :
  M !! f = Some (FunMacro ps v body) → t ≠ TLParen →
  expand M (S fuel) ((TId f, []) :: (t, []) :: rest)
  = (r ← expand M fuel ((t, []) :: rest); Some ((TId f, []) :: r)).
Proof.
  intros HM Ht. cbn [expand].
  rewrite bool_decide_eq_false_2 by apply not_elem_of_nil.
  rewrite HM. destruct t; first [reflexivity | contradiction].
Qed.

(** X2: the header replaces a substituted name only where a left
    parenthesis follows it.  Elsewhere the name is left as it is, and since
    the header declares no function and no object of that name, a unit
    that uses it so (as a value, say, to pass the operation on) does not
    compile. *)
Theorem X2_name_without_invocation :
  ∀ (f : string) (ps : list string) (v : bool) (body : list token)
    (t : token) (rest : list token) (fuel : nat),
    macros stdio_env !! f = Some (FunMacro ps v body) →
    t ≠ TLParen →
    cpp (macros stdio_env) (S fuel) (TId f :: t :: rest)
    = (r ← cpp (macros stdio_env) fuel (t :: rest); Some (TId f :: r))
    ∧ (∀ n, cpp (macros stdio_env) (32 + n) [TId f] = Some [TId f])
    ∧ find_fun (decls stdio_env) f = None
    ∧ find_var (decls stdio_env) f = None
    ∧ (∀ n, compile (32 + n) [Include stdio_h; Fun "main" CInt [[TId f]]]
            = inl TypeError).
Proof.
  intros f ps v body t rest fuel Hf Ht.
  split.
  - unfold cpp. cbn [fresh map].
    rewrite (expand_not_invoked _ _ _ _ _ _ _ _ Hf Ht).
    destruct (expand (macros stdio_env) fuel _); reflexivity.
  - header_macro Hf; repeat split; intros; vm_compute; reflexivity.
Qed.

Lemma X2_name_without_invocation_witness :
  macros stdio_env !! "fputs" = Some (FunMacro ["s"; "stream"] false [TNum 0])
  ∧ compile 32 [Include stdio_h; Fun "main" CInt [[TId "fputs"]]]
    = inl TypeError.
Proof.
  split; [exact macro_fputs|].
  apply (X2_name_without_invocation "fputs" ["s"; "stream"] false [TNum 0]
           (TNum 0) [] 0 macro_fputs); discriminate.
Defined.

(** ** Replacement in place *)

Lemma cpp_cons M fuel (t : htoken) (rest : list htoken) :
  (r ← (r ← expand M fuel rest; Some (t :: r)); Some (map fst r))
  = (r ← (r ← expand M fuel rest; Some (map fst r)); Some (t.1 :: r)).
Proof. destruct (expand M fuel rest); reflexivity. Qed.

Lemma expand_object M x body hs fuel rest :
  M !! x = Some (ObjMacro body) → x ∉ hs →
  expand M (S fuel) ((TId x, hs) :: rest)
  = expand M fuel (paint (x :: hs) (fresh body) ++ rest).
Proof.
  intros HM Hx. cbn [expand].
  rewrite bool_decide_eq_false_2 by exact Hx. rewrite HM. reflexivity.
Qed.

Lemma expand_identifier M x hs fuel rest :
  M !! x = None →
  expand M (S fuel) ((TId x, hs) :: rest)
  = (r ← expand M fuel rest; Some ((TId x, hs) :: r)).
Proof.
  intros HM. cbn [expand]. rewrite HM. by destruct (bool_decide (x ∈ hs)).
Qed.

Lemma expand_other M (t : token) hs fuel rest :
  (∀ x, t ≠ TId x) →
  expand M (S fuel) ((t, hs) :: rest)
  = (r ← expand M fuel rest; Some ((t, hs) :: r)).
Proof. intros Ht. destruct t; first [reflexivity | by destruct (Ht x)]. Qed.

(** The replacement of NULL contains nothing to replace. *)
Lemma expand_NULL_body hs fuel rest :
  expand (macros stdio_env) (7 + fuel) (paint hs (fresh NULL_body) ++ rest)
  = (r ← expand (macros stdio_env) fuel rest;
     Some (paint hs (fresh NULL_body) ++ r)).
Proof.
  change (7 + fuel)%nat with (S (S (S (S (S (S (S fuel))))))).
  cbn [NULL_body paint fresh map app fst snd].
  rewrite expand_other by done. rewrite expand_other by done.
  rewrite expand_identifier by (vm_compute; reflexivity).
  rewrite expand_other by done. rewrite expand_other by done.
  rewrite expand_other by done. rewrite expand_other by done.
  destruct (expand (macros stdio_env) fuel rest); reflexivity.
Qed.

(** X4: a fitting invocation is replaced where it stands, and the tokens
    after it are preprocessed as they would be alone: the result is the
    constant (the token 0, or the replacement of NULL for fdopen) followed
    by the result for the rest. *)
Theorem X4_replacement_in_place :
  ∀ (f : string) (ps : list string) (v : bool) (body : list token)
    (args : list (list token)) (rest : list token) (fuel : nat),
    macros stdio_env !! f = Some (FunMacro ps v body) →
    Forall is_arg args → fits ps v (length args) →
    (body = [TNum 0] →
       cpp (macros stdio_env) (2 + fuel) (call f args ++ rest)
       = (r ← cpp (macros stdio_env) fuel rest; Some (TNum 0 :: r)))
    ∧ (body = [TId "NULL"] →
       cpp (macros stdio_env) (9 + fuel) (call f args ++ rest)
       = (r ← cpp (macros stdio_env) fuel rest; Some (NULL_body ++ r))).
Proof.
  intros f ps v body args rest fuel Hf Hall Hfits.
  split; intros ->; unfold cpp; rewrite fresh_app.
  - change (2 + fuel)%nat with (S (S fuel)).
    rewrite (step_header_macro _ _ _ _ _ _ _ Hf Hall Hfits).
    cbn [paint fresh map app fst snd].
    rewrite expand_other by done. apply cpp_cons.
  - change (9 + fuel)%nat with (S (S (7 + fuel))).
    rewrite (step_header_macro _ _ _ _ _ _ _ Hf Hall Hfits).
    header_macro Hf. cbn [paint fresh map app fst snd].
    rewrite (expand_object _ "NULL" NULL_body);
      [ | vm_compute; reflexivity
        | intros H; apply list_elem_of_singleton in H; discriminate ].
    rewrite expand_NULL_body.
    destruct (expand (macros stdio_env) fuel (fresh rest)); [|reflexivity].
    cbn [mbind option_bind]. rewrite map_app. reflexivity.
Qed.

Lemma X4_replacement_in_place_witness :
  Forall is_arg [[TId "c"]; [TId "stderr"]]
  ∧ fits ["c"; "stream"] false (length [[TId "c"]; [TId "stderr"]])
  ∧ cpp (macros stdio_env) 8
      (call "fputc" [[TId "c"]; [TId "stderr"]] ++ [TPunct "=="; TId "c"])
    = Some [TNum 0; TPunct "=="; TId "c"].
Proof.
  assert (Hall : Forall is_arg [[TId "c"]; [TId "stderr"]])
    by (repeat constructor).
  split; [exact Hall|]. split; [reflexivity|].
  destruct (X4_replacement_in_place "fputc" ["c"; "stream"] false [TNum 0]
              [[TId "c"]; [TId "stderr"]] [TPunct "=="; TId "c"] 6
              macro_fputc Hall eq_refl) as [H0 _].
  etransitivity; [exact (H0 eq_refl) | vm_compute; reflexivity].
Defined.

(** ** Units that use only the substituted operations *)

Lemma compile_stmt_invocation n st (stmt : list token) :
  invocation stmt → macros st = macros stdio_env →
  ∃ e, compile_stmt (32 + n) st stmt = inr e ∧ refs e = ∅.
Proof.
  intros (f & ps & v & body & args & Hf & -> & _ & Hall & Hfits) Hst.
  unfold compile_stmt. rewrite Hst.
  rewrite (cpp_header_macro _ _ _ _ _ _ Hf Hall Hfits).
  clear Hfits. header_macro Hf.
  1-4, 6: exists (EConst 0);
    replace (cpp (macros stdio_env) (32 + n) [TNum 0]) with (Some [TNum 0])
      by (vm_compute; reflexivity);
    rewrite parse_zero; split; reflexivity.
  exists NULL_expr.
  replace (cpp (macros stdio_env) (32 + n) [TId "NULL"]) with (Some NULL_body)
    by (vm_compute; reflexivity).
  rewrite parse_NULL, type_of_NULL. split; reflexivity.
Qed.

Lemma compile_body_invocations n st (body : list (list token)) :
  Forall invocation body → macros st = macros stdio_env →
  compile_body (32 + n) st body = inr ∅.
Proof.
  intros Hbody Hst. induction Hbody as [|stmt body Hstmt _ IH]; [done|].
  destruct (compile_stmt_invocation n st stmt Hstmt Hst) as (e & He & Hrefs).
  cbn [compile_body]. rewrite He, IH. unfold stmt_refs. rewrite Hrefs.
  destruct (pure e); by rewrite (left_id_L ∅ (∪)).
Qed.

(** X3: a unit whose function consists of fitting invocations of the
    substituted operations, whatever their arguments name (stderr, fprintf
    or names declared nowhere), compiles to an object without a single
    undefined symbol, and that object links on its own. *)
Theorem X3_no_symbol_dependency :
  ∀ (body : list (list token)) (n : nat),
    Forall invocation body →
    compile (32 + n) [Include stdio_h; Fun "main" CInt body]
    = inr (Obj {[ "main" ]} ∅)
    ∧ link [Obj {[ "main" ]} ∅] = [].
Proof.
  intros body n Hbody. split; [|vm_compute; reflexivity].
  unfold compile. cbn [compile_tops compile_top pp].
  rewrite include_stdio_h.
  rewrite compile_body_invocations by done.
  vm_compute. reflexivity.
Qed.

Lemma X3_no_symbol_dependency_witness :
  Forall invocation
    [call "fputs" [[TStr "hi"]; [TId "stderr"]];
     call "fclose" [call "fdopen" [[TId "fd"]; [TStr "w"]]]]
  ∧ compile 32
      [Include stdio_h;
       Fun "main" CInt
         [call "fputs" [[TStr "hi"]; [TId "stderr"]];
          call "fclose" [call "fdopen" [[TId "fd"]; [TStr "w"]]]]]
    = inr (Obj {[ "main" ]} ∅).
Proof.
  assert (H : Forall invocation
            [call "fputs" [[TStr "hi"]; [TId "stderr"]];
             call "fclose" [call "fdopen" [[TId "fd"]; [TStr "w"]]]]).
  { constructor; [|constructor; [|constructor]].
    - exists "fputs", ["s"; "stream"], false, [TNum 0],
        [[TStr "hi"]; [TId "stderr"]].
      split; [exact macro_fputs|]. split; [reflexivity|].
      split; [discriminate|]. split; [repeat constructor | reflexivity].
    - exists "fclose", ["stream"], false, [TNum 0],
        [call "fdopen" [[TId "fd"]; [TStr "w"]]].
      split; [exact macro_fclose|]. split; [reflexivity|].
      split; [discriminate|]. split; [repeat constructor | reflexivity]. }
  split; [exact H|].
  apply (X3_no_symbol_dependency _ 0 H).
Defined.

(** ** The one real operation *)

Lemma expand_NULL_body_in M hs fuel rest :
  M !! "void" = None →
  expand M (7 + fuel) (paint hs (fresh NULL_body) ++ rest)
  = (r ← expand M fuel rest; Some (paint hs (fresh NULL_body) ++ r)).
Proof.
  intros Hvoid.
  change (7 + fuel)%nat with (S (S (S (S (S (S (S fuel))))))).
  cbn [NULL_body paint fresh map app fst snd].
  rewrite expand_other by done. rewrite expand_other by done.
  rewrite expand_identifier by exact Hvoid.
  rewrite expand_other by done. rewrite expand_other by done.
  rewrite expand_other by done. rewrite expand_other by done.
  destruct (expand M fuel rest); reflexivity.
Qed.

Lemma cpp_fprintf_fdopen M (fd mode : list token) fmt n :
  is_arg fd → is_arg mode →
  M !! "fdopen" = Some (FunMacro ["fd"; "mode"] false [TId "NULL"]) →
  M !! "NULL" = Some (ObjMacro NULL_body) →
  M !! "fprintf" = None → M !! "void" = None →
  cpp M (32 + n) (call "fprintf" [call "fdopen" [fd; mode]; [TStr fmt]])
  = Some (TId "fprintf" :: TLParen :: NULL_body ++ [TComma; TStr fmt; TRParen]).
Proof.
  intros Hfd Hmode Hfdopen HNULL Hfprintf Hvoid.
  replace (call "fprintf" [call "fdopen" [fd; mode]; [TStr fmt]])
    with (TId "fprintf" :: TLParen
          :: call "fdopen" [fd; mode] ++ [TComma; TStr fmt; TRParen])
    by (unfold call at 2; cbn [commas]; rewrite <- app_assoc; reflexivity).
  unfold cpp. cbn [fresh map]. fold (fresh (call "fdopen" [fd; mode]
                                            ++ [TComma; TStr fmt; TRParen])).
  rewrite fresh_app.
  change (32 + n)%nat
    with (S (S (S (S (7 + S (S (S (S (17 + n)))))))))%nat.
  rewrite expand_identifier by exact Hfprintf.
  rewrite expand_other by done.
  rewrite (expand_invocation M "fdopen" ["fd"; "mode"] false [TId "NULL"]
             [("fd", fresh fd); ("mode", fresh mode)] [fd; mode]);
    [ | exact Hfdopen | discriminate | repeat (constructor; try assumption)
      | reflexivity | ].
  2: { intros p Hp. apply list_elem_of_singleton in Hp.
       injection Hp as ->. reflexivity. }
  cbn [paint fresh map app fst snd].
  rewrite (expand_object _ "NULL" NULL_body);
    [ | exact HNULL
      | intros H; apply list_elem_of_singleton in H; discriminate ].
  rewrite expand_NULL_body_in by exact Hvoid.
  cbn [fresh map].
  rewrite expand_other by done. rewrite expand_other by done.
  rewrite expand_other by done.
  reflexivity.
Qed.

(** X5: what fdopen hands to fprintf is the null pointer constant.  In
    every state of a unit in which fdopen and NULL are the macros the
    header defines, fprintf and void are not macros, and fprintf is
    declared as the header declares it, the statement
    [fprintf(fdopen(fd, mode), fmt)] is, for every two arguments of fdopen
    and every format string, preprocessed to a call of fprintf on the
    replacement of NULL and the format, and accepted with type int. *)
Theorem X5_fprintf_on_fdopen_gets_null :
  ∀ (fd mode : list token) (fmt : string) (env : pp_state),
    is_arg fd → is_arg mode →
    macros env !! "fdopen"
      = Some (FunMacro ["fd"; "mode"] false [TId "NULL"]) →
    macros env !! "NULL" = Some (ObjMacro NULL_body) →
    macros env !! "fprintf" = None →
    macros env !! "void" = None →
    find_fun (decls env) "fprintf"
      = Some (CInt, [CPtr (CNamed "FILE"); CPtr (CConst CChar)], true) →
    ∀ n : nat,
      cpp (macros env) (32 + n)
        (call "fprintf" [call "fdopen" [fd; mode]; [TStr fmt]])
      = Some (TId "fprintf" :: TLParen
              :: NULL_body ++ [TComma; TStr fmt; TRParen])
      ∧ compile_stmt (32 + n) env
          (call "fprintf" [call "fdopen" [fd; mode]; [TStr fmt]])
        = inr (ECall "fprintf" [NULL_expr; EStr fmt])
      ∧ null_constant NULL_expr = true
      ∧ type_of (decls env) (ECall "fprintf" [NULL_expr; EStr fmt])
        = Some CInt.
Proof.
  intros fd mode fmt env Hfd Hmode Hfdopen HNULL Hfprintf Hvoid Hfun n.
  pose proof (cpp_fprintf_fdopen (macros env) fd mode fmt n
                Hfd Hmode Hfdopen HNULL Hfprintf Hvoid) as Hcpp.
  assert (Hparse : parse (typedef_names (decls env)) (32 + n)
            (TId "fprintf" :: TLParen :: NULL_body ++ [TComma; TStr fmt; TRParen])
          = Some (ECall "fprintf" [NULL_expr; EStr fmt]))
    by (vm_compute; reflexivity).
  assert (Htype : type_of (decls env) (ECall "fprintf" [NULL_expr; EStr fmt])
                  = Some CInt).
  { cbn [type_of]. rewrite Hfun.
    cbn [mbind option_bind mapM mret option_ret].
    rewrite type_of_NULL. cbn [type_of mbind option_bind mret option_ret].
    cbn [check_args].
    rewrite (assignable_NULL _ _ (CNamed "FILE")) by by resolve_base.
    unfold assignable. resolve_base. reflexivity. }
  split; [exact Hcpp|]. split; [|split; [reflexivity | exact Htype]].
  unfold compile_stmt. rewrite Hcpp, Hparse, Htype. reflexivity.
Qed.

Lemma X5_fprintf_on_fdopen_gets_null_witness :
  is_arg [TNum 2] ∧ is_arg [TStr "w"]
  ∧ compile_stmt 32 stdio_env
      (call "fprintf" [call "fdopen" [[TNum 2]; [TStr "w"]]; [TStr "%d"]])
    = inr (ECall "fprintf" [NULL_expr; EStr "%d"]).
Proof.
  split; [reflexivity|]. split; [reflexivity|].
  destruct (X5_fprintf_on_fdopen_gets_null [TNum 2] [TStr "w"] "%d" stdio_env
              eq_refl eq_refl eq_refl eq_refl eq_refl eq_refl eq_refl 0)
    as (_ & H & _).
  exact H.
Defined.

(** X8: fprintf has two named parameters, so a call with fewer than two
    arguments has no type, in any unit that has included the header: the
    stream cannot be left out. *)
Theorem X8_fprintf_needs_stream_and_format :
  ∀ (ds' : list decl) (args : list expr),
    (length args < 2)%nat →
    type_of (decls stdio_env ++ ds') (ECall "fprintf" args) = None.
Proof.
  intros ds' args Hlen. cbn [type_of]. rewrite stdio_decls.
  simpl find_fun. cbn [mbind option_bind map snd].
  destruct args as [|a [|b args]]; [reflexivity | | simpl in Hlen; lia].
  cbn [mapM mbind option_bind mret option_ret].
  destruct (type_of _ a) as [t|]; [|reflexivity].
  cbn [mbind option_bind mret option_ret check_args].
  by rewrite andb_false_r.
Qed.

Lemma X8_fprintf_needs_stream_and_format_witness :
  (length [EStr "text"] < 2)%nat
  ∧ type_of (decls stdio_env ++ []) (ECall "fprintf" [EStr "text"]) = None.
Proof.
  split; [simpl; lia|].
  apply (X8_fprintf_needs_stream_and_format [] [EStr "text"]). simpl. lia.
Defined.

(** X9: the header declares fprintf as a function returning int, with a
    pointer to FILE, a pointer to const char and an ellipsis, and neither
    replaces it by a macro nor holds a definition of it.  A call whose
    first two arguments fit those parameters, followed by any number of
    arguments of arithmetic or pointer type, has type int.  The unit that
    includes the header and calls [fprintf(stderr, fmt, 1)] compiles for
    every format string, and whatever stands before and after the
    inclusion, the unit's object defines fprintf only if one of those
    other parts holds a definition of it. *)
Theorem X9_fprintf_declared_not_defined :
  ∀ (ds' : list decl) (stream format : expr) (rest : list expr)
    (ts tf : ctype),
    let ds := decls stdio_env ++ ds' in
    type_of ds stream = Some ts →
    assignable ds stream ts (CPtr (CNamed "FILE")) = true →
    type_of ds format = Some tf →
    assignable ds format tf (CPtr (CConst CChar)) = true →
    Forall (λ a, ∃ t t', type_of ds a = Some t ∧ resolved ds t = Some t'
                         ∧ arith t' || is_ptr t' = true) rest →
    find_fun ds "fprintf"
    = Some (CInt, [CPtr (CNamed "FILE"); CPtr (CConst CChar)], true)
    ∧ macros stdio_env !! "fprintf" = None
    ∧ ("fprintf" ∉ top_definitions (Include stdio_h))
    ∧ type_of ds (ECall "fprintf" (stream :: format :: rest)) = Some CInt
    ∧ (∀ (n : nat) (fmt : string), ∃ o : object,
         compile (32 + n)
           [Include stdio_h;
            Fun "main" CInt
              [call "fprintf" [[TId "stderr"]; [TStr fmt]; [TNum 1]]]]
         = inr o ∧ defined o = {[ "main" ]})
    ∧ (∀ (fuel : nat) (pre post : list top) (o : object),
         compile fuel (pre ++ Include stdio_h :: post) = inr o →
         (∀ t, t ∈ (pre ++ post) → "fprintf" ∉ top_definitions t) →
         "fprintf" ∉ defined o).
Proof.
  intros ds' stream format rest ts tf ds Hs Has Hf Haf Hrest.
  assert (Hfun : find_fun ds "fprintf"
            = Some (CInt, [CPtr (CNamed "FILE"); CPtr (CConst CChar)], true)).
  { subst ds. rewrite stdio_decls. reflexivity. }
  split; [exact Hfun|]. split; [vm_compute; reflexivity|].
  split; [intros H; vm_compute in H; by apply elem_of_nil in H|].
  split; [|split].
  - cbn [type_of]. rewrite Hfun. cbn [mbind option_bind mapM].
    rewrite Hs, Hf. cbn [mbind option_bind mret option_ret].
    destruct (mapM_is_Some_2 (λ a, t ← type_of ds a; Some (a, t)) rest)
      as [targs ->].
    { eapply Forall_impl; [exact Hrest|]. intros a (t & t' & Ht & _). simpl.
      rewrite Ht. by eexists. }
    cbn [mbind option_bind mret option_ret check_args].
    rewrite Has, Haf. destruct targs as [|[]]; reflexivity.
  - intros n fmt. eexists. split; [vm_compute; reflexivity|reflexivity].
  - intros fuel pre post o Hc Hparts Hx.
    destruct (compile_defined _ _ _ _ Hc Hx) as (t & Ht & Hxt).
    apply elem_of_app in Ht as [Ht|Ht].
    + apply (Hparts t); [|exact Hxt]. apply elem_of_app. by left.
    + apply elem_of_cons in Ht as [->|Ht].
      * by apply elem_of_nil in Hxt.
      * apply (Hparts t); [|exact Hxt]. apply elem_of_app. by right.
Qed.

Lemma X9_fprintf_declared_not_defined_witness :
  type_of (decls stdio_env ++ []) (EVar "stderr") = Some (CPtr (CNamed "FILE"))
  ∧ type_of (decls stdio_env ++ []) (EStr "%d") = Some (CPtr CChar)
  ∧ type_of (decls stdio_env ++ [])
      (ECall "fprintf" [EVar "stderr"; EStr "%d"; EConst 1]) = Some CInt.
Proof.
  split; [reflexivity|]. split; [reflexivity|].
  destruct (X9_fprintf_declared_not_defined []
              (EVar "stderr") (EStr "%d") [EConst 1]
              (CPtr (CNamed "FILE")) (CPtr CChar))
    as (_ & _ & _ & Htype & _);
    [ reflexivity | reflexivity | reflexivity | reflexivity
    | repeat constructor; exists CInt, CInt; repeat split; reflexivity
    | exact Htype ].
Defined.


(** ** The header beside other declarations *)















(** X7: inclusion of the header succeeds in every state, and it is
    conservative: the open conditional groups are as before, the
    declarations made so far remain in front of the new ones, and a name
    the header does not define keeps the macro it had, or none.  Where the
    guard macro is already defined, or the inclusion stands in a skipped
    group, the state is returned unchanged. *)
Theorem X7_inclusion_is_conservative :
  ∀ (st : pp_state), ∃ st',
    include stdio_h st = Some st'
    ∧ conds st' = conds st
    ∧ decls st `prefix_of` decls st'
    ∧ (∀ x, macros stdio_env !! x = None → macros st' !! x = macros st !! x)
    ∧ (macros st !! "_STDIO_H" ≠ None ∨ active st = false → st' = st).
Proof.
  intros [M ds cs]. rewrite include_stdio_h_cases. eexists.
  split; [reflexivity|].
  destruct (bool_decide (M !! "_STDIO_H" = None)) eqn:Hb;
    destruct (forallb id cs) eqn:Hcs; cbn [andb macros decls conds].
  2-4: split; [reflexivity|]; split; [by exists []; rewrite app_nil_r|];
       split; [reflexivity|]; reflexivity.
  split; [reflexivity|]. split; [by eexists|]. split.
  - intros x Hx. rewrite stdio_macros in Hx.
    repeat (apply lookup_insert_None in Hx as [Hx ?]).
    by rewrite !lookup_insert_ne.
  - apply bool_decide_eq_true in Hb. unfold active. cbn [conds].
    intros [H|H]; [done | congruence].
Qed.

Lemma X7_inclusion_is_conservative_witness :
  ∃ st', include stdio_h (PP {[ "EOF" := ObjMacro [TNum (-1)] ]} [] [false])
         = Some st'
         ∧ conds st' = [false].
Proof.
  destruct (X7_inclusion_is_conservative
              (PP {[ "EOF" := ObjMacro [TNum (-1)] ]} [] [false]))
    as (st' & Hinc & Hconds & _).
  exists st'. split; [exact Hinc | exact Hconds].
Defined.
